(** * Double-slit simulation library: a shallow embedding

    The embedded program is [double_slit_simulation.py]: the Fraunhofer
    intensity model ([DoubleslitSimulator]) and the pattern analyser
    ([InterferenceAnalyzer]).

    The Python code computes on NumPy arrays of binary64 numbers.  The
    arithmetic is kept abstract here: a class [Cmp] carries the comparisons
    the analyser needs, a class [Arith] the operations of the intensity
    model.  Definitions are written once over those classes, following the
    source line by line; an array is a [list], a vectorised NumPy operation
    is a [map].  Three instances are given: the rationals (comparisons
    only, executable), the real numbers (exact arithmetic, used where a
    property needs analysis), and binary64 numbers (every operation
    rounded to nearest with 53 bits, used to evaluate the code where
    rounding decides the outcome). *)

From Stdlib Require Import String.
From Stdlib Require Import List Bool Arith ZArith Lia Permutation Sorted.
From Stdlib Require Import QArith Reals Lra.
Import ListNotations.

Close Scope Q_scope.

(** ** Exceptions *)

(** The only exception class the library and the NumPy calls it makes can
    raise on the paths modelled here is Python's [ValueError]. *)
Inductive exn : Type :=
| ValueError (msg : string).

Inductive result (A : Type) : Type :=
| Ok (a : A)
| Raise (e : exn).

Arguments Ok {A} a.
Arguments Raise {A} e.

Definition bind {A B : Type} (r : result A) (k : A -> result B) : result B :=
  match r with
  | Ok a => k a
  | Raise e => Raise e
  end.

Notation "x <- r ;; k" := (bind r (fun x => k))
  (at level 61, r at next level, right associativity).

Definition is_ok {A : Type} (r : result A) : bool :=
  match r with Ok _ => true | Raise _ => false end.

Definition msg_no_data : string := "No experimental data loaded".
Definition msg_empty_max : string :=
  "zero-size array to reduction operation maximum which has no identity".
Definition msg_negative_samples : string :=
  "Number of samples, %s, must be non-negative.".

(** ** The arithmetic interface *)

(** What the analyser needs of its numbers: unary minus, the three
    comparisons, decimal literals, and NumPy's [argsort] (an introsort whose
    order among equal keys is not specified, hence a parameter). *)
Class Cmp (F : Type) : Type := {
  fneg : F -> F;
  flt : F -> F -> bool;
  fle : F -> F -> bool;
  feq : F -> F -> bool;
  lit : Q -> F;
  argsort : list F -> list nat
}.

(** Facts about comparisons that hold of binary64 (NaN included, every
    comparison with it being false) as well as of exact numbers. *)
Class CmpLaws (F : Type) `{Cmp F} : Prop := {
  flt_asym : forall a b, flt a b = true -> flt b a = false;
  flt_feq_r : forall a b c, feq a c = true -> flt b c = flt b a;
  flt_feq_l : forall a b c, feq a c = true -> flt c b = flt a b;
  flt_fneg : forall a b, flt (fneg a) (fneg b) = flt b a;
  feq_fneg : forall a b, feq (fneg a) (fneg b) = feq a b;
  fle_fneg : forall a b, fle (fneg a) (fneg b) = fle b a;
  argsort_perm : forall l, Permutation (argsort l) (seq 0 (length l))
}.

(** What the intensity model needs on top. *)
Class Arith (F : Type) `{Cmp F} : Type := {
  fadd : F -> F -> F;
  fsub : F -> F -> F;
  fmul : F -> F -> F;
  fdiv : F -> F -> F;
  fabs : F -> F;
  fmaximum : F -> F -> F;
  fminimum : F -> F -> F;
  fsqrt : F -> F;
  fsin : F -> F;
  fcos : F -> F;
  farctan : F -> F;
  fpi : F;
  of_Z : Z -> F
}.

Declare Scope np_scope.
Delimit Scope np_scope with np.
Notation "x + y" := (fadd x y) : np_scope.
Notation "x - y" := (fsub x y) : np_scope.
Notation "x * y" := (fmul x y) : np_scope.
Notation "x / y" := (fdiv x y) : np_scope.
Notation "- x" := (fneg x) : np_scope.

(** ** NumPy helpers *)

Section Numpy.
Context {F : Type} `{Arith F}.
Local Open Scope np_scope.

(** [x ** 2] on a float array is the elementwise square. *)
Definition sq (x : F) : F := x * x.

(** Elementwise binary operation on two arrays of one length. *)
Fixpoint map2 (f : F -> F -> F) (xs ys : list F) : list F :=
  match xs, ys with
  | x :: xs', y :: ys' => f x y :: map2 f xs' ys'
  | _, _ => []
  end.

(** [np.where(cond, a, x)] with a scalar [a]. *)
Definition np_where (cond : F -> bool) (a : F) (xs : list F) : list F :=
  map (fun x => if cond x then a else x) xs.

(** [np.max]: the reduction by [np.maximum]; raises on an empty array. *)
Definition np_max (xs : list F) : result F :=
  match xs with
  | [] => Raise (ValueError msg_empty_max)
  | x :: t => Ok (fold_left fmaximum t x)
  end.

Definition np_sum (xs : list F) : F := fold_left fadd xs (lit 0).

Definition np_mean (xs : list F) : F :=
  np_sum xs / of_Z (Z.of_nat (length xs)).

(** Replace the last element of a non-empty array. *)
Fixpoint set_last (xs : list F) (v : F) : list F :=
  match xs with
  | [] => []
  | [_] => [v]
  | x :: t => x :: set_last t v
  end.

(** [np.arange(0, num)] as floats. *)
Definition np_arange (num : nat) : list F :=
  map (fun i => of_Z (Z.of_nat i)) (seq 0 num).

(** [np.linspace(start, stop, num)] with [endpoint=True]: the samples are
    [i * step + start], or [(i / div) * delta + start] when the step is
    zero; the last one is overwritten by [stop] when there are at least
    two; a negative [num] raises. *)
Definition linspace_samples (start stop : F) (num : Z) : list F :=
  let div := (num - 1)%Z in
  let delta := stop - start in
  let y := np_arange (Z.to_nat num) in
  let y := if (0 <? div)%Z
           then let step := delta / of_Z div in
                if feq step (lit 0)
                then map (fun i => (i / of_Z div) * delta) y
                else map (fun i => i * step) y
           else map (fun i => i * delta) y in
  let y := map (fun v => v + start) y in
  if (1 <? num)%Z then set_last y stop else y.

Definition np_linspace (start stop : F) (num : Z) : result (list F) :=
  if (num <? 0)%Z then Raise (ValueError msg_negative_samples)
  else Ok (linspace_samples start stop num).

(** [np.corrcoef(x, y)[0, 1]]: covariance with [ddof = 1], divided by
    both standard deviations, clipped to [-1, 1]. *)
Definition np_corrcoef01 (xs ys : list F) : F :=
  let mx := np_mean xs in
  let my := np_mean ys in
  let dx := map (fun v => v - mx) xs in
  let dy := map (fun v => v - my) ys in
  let fact := of_Z (Z.max 0 (Z.of_nat (length xs) - 1)) in
  let c00 := np_sum (map2 fmul dx dx) * (lit 1 / fact) in
  let c01 := np_sum (map2 fmul dx dy) * (lit 1 / fact) in
  let c11 := np_sum (map2 fmul dy dy) * (lit 1 / fact) in
  let c := (c01 / fsqrt c00) / fsqrt c11 in
  fminimum (fmaximum c (- lit 1)) (lit 1).

End Numpy.

(** ** WaveFunction and DoubleslitSimulator *)

Section Simulator.
Context {F : Type} `{Arith F}.
Local Open Scope np_scope.

Record WaveFunction : Type := {
  wavelength : F;
  amplitude : F;
  frequency : F;
  k : F
}.

Definition WaveFunction_init (wavelength amplitude : F) : WaveFunction :=
  {| wavelength := wavelength;
     amplitude := amplitude;
     frequency := lit 300000000 / wavelength;
     k := lit 2 * fpi / wavelength |}.


Record DoubleslitSimulator : Type := {
  wave : WaveFunction;
  slit_width : F;
  slit_separation : F;
  screen_distance : F
}.

Definition DoubleslitSimulator_init
    (wavelength slit_width slit_separation screen_distance : F)
  : DoubleslitSimulator :=
  {| wave := WaveFunction_init wavelength (lit 1);
     slit_width := slit_width;
     slit_separation := slit_separation;
     screen_distance := screen_distance |}.

(** The literal [1e-10] of the source. *)
Definition eps : F := lit (1 # 10000000000).

Variable self : DoubleslitSimulator.

Definition single_slit_intensity (y_positions : list F) : list F :=
  let theta := map (fun y => farctan (y / screen_distance self)) y_positions in
  let beta :=
    map (fun t => (fpi * slit_width self * fsin t) / wavelength (wave self))
        theta in
  let beta_safe := np_where (fun b => flt (fabs b) eps) eps beta in
  let intensity := map (fun b => sq (fsin b / b)) beta_safe in
  intensity.

Definition double_slit_intensity (y_positions : list F) : list F :=
  let theta := map (fun y => farctan (y / screen_distance self)) y_positions in
  let beta :=
    map (fun t => (fpi * slit_width self * fsin t) / wavelength (wave self))
        theta in
  let beta_safe := np_where (fun b => flt (fabs b) eps) eps beta in
  let single_slit_term := map (fun b => sq (fsin b / b)) beta_safe in
  let delta :=
    map (fun t => (fpi * slit_separation self * fsin t)
                  / wavelength (wave self)) theta in
  let interference_term := map (fun d => sq (fcos d)) delta in
  let intensity := map2 fmul single_slit_term interference_term in
  intensity.

(** The last line of [fraunhofer_diffraction]:
    [intensity / np.max(intensity)]. *)
Definition normalize (intensity : list F) : result (list F) :=
  m <- np_max intensity ;;
  Ok (map (fun v => v / m) intensity).

Definition fraunhofer_diffraction (y_positions : list F) (double_slit : bool)
  : result (list F) :=
  let intensity :=
    if double_slit then double_slit_intensity y_positions
    else single_slit_intensity y_positions in
  normalize intensity.

Definition simulate_experiment
    (screen_width : F) (resolution : Z) (double_slit : bool)
  : result (list F * list F) :=
  y_positions <-
    np_linspace (- screen_width / lit 2) (screen_width / lit 2) resolution ;;
  intensity <- fraunhofer_diffraction y_positions double_slit ;;
  Ok (y_positions, intensity).

End Simulator.

Arguments WaveFunction F : clear implicits.
Arguments DoubleslitSimulator F : clear implicits.

(** ** Peak finding: [scipy.signal.find_peaks]

    [find_peaks_and_minima] calls SciPy's [find_peaks] with [height] and
    [distance].  That routine is library code; the definitions below follow
    its three steps: [_local_maxima_1d], the height condition
    ([_select_by_property]) and [_select_by_peak_distance]. *)

Section FindPeaks.
Context {F : Type} `{Cmp F}.

(** [x[i]]; the default value is never reached on the paths below. *)
Definition item (x : list F) (i : nat) : F := nth i x (lit 0).

(** The inner loop of [_local_maxima_1d]:
    [while i_ahead < i_max and x[i_ahead] == x[i]: i_ahead += 1].
    [n] is the number of indices left below [i_max]. *)
Fixpoint skip_plateau (x : list F) (xi : F) (n i_ahead : nat) : nat :=
  match n with
  | O => i_ahead
  | S n' =>
      if feq (item x i_ahead) xi then skip_plateau x xi n' (S i_ahead)
      else i_ahead
  end.

(** A detected maximum: midpoint and both edges of its plateau. *)
Record maximum : Type := {
  midpoint : nat;
  left_edge : nat;
  right_edge : nat
}.

(** The outer loop, [while i < i_max], started at [i]. *)
Fixpoint local_maxima_loop (x : list F) (i_max fuel i : nat) : list maximum :=
  match fuel with
  | O => []
  | S fuel' =>
      if i <? i_max then
        if flt (item x (i - 1)) (item x i) then
          let i_ahead := skip_plateau x (item x i) (i_max - (i + 1)) (i + 1) in
          if flt (item x i_ahead) (item x i) then
            {| midpoint := (i + (i_ahead - 1)) / 2;
               left_edge := i;
               right_edge := i_ahead - 1 |}
              :: local_maxima_loop x i_max fuel' (i_ahead + 1)
          else local_maxima_loop x i_max fuel' (i + 1)
        else local_maxima_loop x i_max fuel' (i + 1)
      else []
  end.

Definition local_maxima_1d (x : list F) : list maximum :=
  local_maxima_loop x (length x - 1) (length x) 1.

(** [peak_properties >= pmin], elementwise. *)
Definition select_by_property (peak_properties : list F) (pmin : F)
  : list bool :=
  map (fun p => fle pmin p) peak_properties.

(** Boolean-mask indexing, [xs[keep]]. *)
Fixpoint mask {A : Type} (xs : list A) (keep : list bool) : list A :=
  match xs, keep with
  | x :: xs', b :: keep' => if b then x :: mask xs' keep' else mask xs' keep'
  | _, _ => []
  end.

(** [keep[i] = v]. *)
Fixpoint set_at {A : Type} (l : list A) (i : nat) (v : A) : list A :=
  match l, i with
  | [] , _ => []
  | _ :: t, O => v :: t
  | a :: t, S i' => a :: set_at t i' v
  end.

Definition within (p q : nat) (distance : nat) : bool :=
  (Z.of_nat p - Z.of_nat q <? Z.of_nat distance)%Z.

(** [k = j - 1; while 0 <= k and peaks[j] - peaks[k] < distance:
    keep[k] = 0; k -= 1].  The first argument is [k + 1]. *)
Fixpoint mark_earlier (peaks : list nat) (pj distance : nat)
    (k1 : nat) (keep : list bool) : list bool :=
  match k1 with
  | O => keep
  | S k0 =>
      if within pj (nth k0 peaks O) distance
      then mark_earlier peaks pj distance k0 (set_at keep k0 false)
      else keep
  end.

(** [k = j + 1; while k < peaks_size and peaks[k] - peaks[j] < distance:
    keep[k] = 0; k += 1].  [n] is [peaks_size - k]. *)
Fixpoint mark_later (peaks : list nat) (pj distance : nat)
    (n k0 : nat) (keep : list bool) : list bool :=
  match n with
  | O => keep
  | S n' =>
      if within (nth k0 peaks O) pj distance
      then mark_later peaks pj distance n' (S k0) (set_at keep k0 false)
      else keep
  end.

(** One turn of the loop of [_select_by_peak_distance], for the peak at
    position [j]. *)
Definition suppress_around (peaks : list nat) (distance : nat)
    (keep : list bool) (j : nat) : list bool :=
  if nth j keep false then
    let pj := nth j peaks O in
    let keep := mark_earlier peaks pj distance j keep in
    mark_later peaks pj distance (length peaks - (j + 1)) (j + 1) keep
  else keep.

(** Peaks are visited by decreasing priority: [argsort] read backwards. *)
Definition select_by_peak_distance (peaks : list nat) (priority : list F)
    (distance : nat) : list bool :=
  let keep := repeat true (length peaks) in
  let priority_to_position := argsort priority in
  fold_left (suppress_around peaks distance) (rev priority_to_position) keep.

Definition find_peaks (x : list F) (height : F) (distance : nat) : list nat :=
  let peaks := map midpoint (local_maxima_1d x) in
  let peak_heights := map (item x) peaks in
  let keep := select_by_property peak_heights height in
  let peaks := mask peaks keep in
  let keep := select_by_peak_distance peaks (map (item x) peaks) distance in
  mask peaks keep.

End FindPeaks.

(** ** InterferenceAnalyzer *)

Section Analyzer.
Context {F : Type} `{Arith F}.
Local Open Scope np_scope.

Record InterferenceAnalyzer : Type := {
  experimental_data : option (list F);
  theoretical_data : option (list F)
}.

Definition InterferenceAnalyzer_init : InterferenceAnalyzer :=
  {| experimental_data := None; theoretical_data := None |}.

Definition find_peaks_and_minima (intensity : list F)
  : list nat * list nat :=
  let peaks := find_peaks intensity (lit (1 # 10)) 10 in
  let minima := find_peaks (map fneg intensity) (- lit (9 # 10)) 10 in
  (peaks, minima).

(** The dictionary [compare_with_theory] returns. *)
Record comparison : Type := {
  correlation : F;
  rms_error : F;
  experimental_peaks : list nat;
  theoretical_peaks : list nat;
  experimental_minima : list nat;
  theoretical_minima : list nat
}.

(** The method updates [self.theoretical_data]; the analyser after the
    call is returned with the dictionary. *)
Definition compare_with_theory (self : InterferenceAnalyzer)
    (simulator : DoubleslitSimulator F) (screen_width : F)
  : result (InterferenceAnalyzer * comparison) :=
  match experimental_data self with
  | None => Raise (ValueError msg_no_data)
  | Some experimental =>
      let resolution := Z.of_nat (length experimental) in
      sim <- simulate_experiment simulator screen_width resolution true ;;
      let theoretical := snd sim in
      let self' := {| experimental_data := Some experimental;
                      theoretical_data := Some theoretical |} in
      let correlation := np_corrcoef01 experimental theoretical in
      let rms_error :=
        fsqrt (np_mean (map sq (map2 fsub experimental theoretical))) in
      let exp := find_peaks_and_minima experimental in
      let theo := find_peaks_and_minima theoretical in
      Ok (self',
          {| correlation := correlation;
             rms_error := rms_error;
             experimental_peaks := fst exp;
             theoretical_peaks := fst theo;
             experimental_minima := snd exp;
             theoretical_minima := snd theo |})
  end.

End Analyzer.

Arguments InterferenceAnalyzer F : clear implicits.
Arguments comparison F : clear implicits.

(** ** Instances of the arithmetic *)

(** A stable insertion sort on (position, key) pairs stands for [argsort]
    in both instances. *)
Section Argsort.
Context {A : Type} (le : A -> A -> bool).

Fixpoint insert_by (p : nat * A) (l : list (nat * A)) : list (nat * A) :=
  match l with
  | [] => [p]
  | q :: t => if le (snd p) (snd q) then p :: l else q :: insert_by p t
  end.

Definition insertion_argsort (l : list A) : list nat :=
  map fst (fold_right insert_by [] (combine (seq 0 (length l)) l)).
End Argsort.

Definition Qltb (a b : Q) : bool := negb (Qle_bool b a).

#[export] Instance Cmp_Q : Cmp Q := {|
  fneg := Qopp;
  flt := Qltb;
  fle := Qle_bool;
  feq := Qeq_bool;
  lit := fun q => q;
  argsort := insertion_argsort Qle_bool
|}.

Definition Rltb (a b : R) : bool := if Rlt_dec a b then true else false.
Definition Rleb (a b : R) : bool := if Rle_dec a b then true else false.
Definition Reqb (a b : R) : bool := if Req_dec_T a b then true else false.

#[export] Instance Cmp_R : Cmp R := {|
  fneg := Ropp;
  flt := Rltb;
  fle := Rleb;
  feq := Reqb;
  lit := Q2R;
  argsort := insertion_argsort Rleb
|}.

#[export] Instance Arith_R : Arith R := {|
  fadd := Rplus;
  fsub := Rminus;
  fmul := Rmult;
  fdiv := Rdiv;
  fabs := Rabs;
  fmaximum := Rmax;
  fminimum := Rmin;
  fsqrt := sqrt;
  fsin := sin;
  fcos := cos;
  farctan := atan;
  fpi := PI;
  of_Z := IZR
|}.

(** ** Specification predicates for the analyser *)

Section PeakPredicates.
Context {F : Type} `{Cmp F}.

(** [i] is the midpoint of a run of equal samples, not touching either end
    of the array, whose two outer neighbours are strictly lower. *)
Definition local_maximum (x : list F) (i : nat) : Prop :=
  exists l r,
    1 <= l /\ l <= i /\ i <= r /\ r + 1 < length x /\ i = (l + r) / 2 /\
    (forall j, l < j <= r -> feq (item x j) (item x l) = true) /\
    flt (item x (l - 1)) (item x l) = true /\
    flt (item x (r + 1)) (item x l) = true.

(** The same, read off a record produced by the scan. *)
Definition is_maximum_of (x : list F) (m : maximum) : Prop :=
  1 <= left_edge m /\ left_edge m <= right_edge m /\
  right_edge m + 1 < length x /\
  midpoint m = (left_edge m + right_edge m) / 2 /\
  (forall j, left_edge m < j <= right_edge m ->
             feq (item x j) (item x (left_edge m)) = true) /\
  flt (item x (left_edge m - 1)) (item x (left_edge m)) = true /\
  flt (item x (right_edge m + 1)) (item x (left_edge m)) = true.

(** An interior index none of whose two neighbours is higher, resp.
    lower. *)
Definition no_higher_neighbour (x : list F) (i : nat) : Prop :=
  1 <= i /\ i + 1 < length x /\
  flt (item x i) (item x (i - 1)) = false /\
  flt (item x i) (item x (i + 1)) = false.

Definition no_lower_neighbour (x : list F) (i : nat) : Prop :=
  1 <= i /\ i + 1 < length x /\
  flt (item x (i - 1)) (item x i) = false /\
  flt (item x (i + 1)) (item x i) = false.

(** Consecutive entries are at least [gap] apart (hence ascending when
    [gap] is positive). *)
Definition min_gap (gap : nat) (l : list nat) : Prop :=
  forall i, S i < length l -> nth i l 0 + gap <= nth (S i) l 0.

Definition ascending (l : list nat) : Prop :=
  forall i, S i < length l -> nth i l 0 < nth (S i) l 0.

End PeakPredicates.

(** Two positions of [peaks] hold indices at least [distance] apart. *)
Definition far (peaks : list nat) (distance a b : nat) : Prop :=
  (Z.of_nat distance <=
   Z.abs (Z.of_nat (nth a peaks O) - Z.of_nat (nth b peaks O)))%Z.

(** Invariant of the loop of [_select_by_peak_distance]: a kept position
    that has had its turn is far from every other kept position. *)
Definition settled (peaks : list nat) (distance : nat)
           (keep : list bool) (done : list nat) : Prop :=
  forall a b,
    In a done -> b < length peaks -> a <> b ->
    nth a keep false = true -> nth b keep false = true ->
    far peaks distance a b.

(** The interference phase at a screen position. *)
Definition delta_at {F : Type} `{Arith F} (self : DoubleslitSimulator F)
           (y : F) : F :=
  fdiv (fmul (fmul fpi (slit_separation self))
             (fsin (farctan (fdiv y (screen_distance self)))))
       (wavelength (wave self)).

(** ** The intensity at one screen position

    The arrays of [single_slit_intensity] are built stage by stage; these
    are the same quantities for a single position [y]. *)

Section Pointwise.
Context {F : Type} `{Arith F}.
Variable self : DoubleslitSimulator F.

Definition beta_at (y : F) : F :=
  fdiv (fmul (fmul fpi (slit_width self))
             (fsin (farctan (fdiv y (screen_distance self)))))
       (wavelength (wave self)).

Definition beta_safe_at (y : F) : F :=
  if flt (fabs (beta_at y)) eps then eps else beta_at y.

Definition single_slit_at (y : F) : F :=
  sq (fdiv (fsin (beta_safe_at y)) (beta_safe_at y)).

Definition double_slit_at (y : F) : F :=
  fmul (single_slit_at y) (sq (fcos (delta_at self y))).

(** The array [fraunhofer_diffraction] normalises. *)
Definition raw_intensity (y_positions : list F) (double_slit : bool) : list F :=
  if double_slit then double_slit_intensity self y_positions
  else single_slit_intensity self y_positions.

End Pointwise.

(** ** Predicates and sample inputs over the real numbers *)






(** The default arguments of [DoubleslitSimulator.__init__]. *)
Definition default_simulator : DoubleslitSimulator R :=
  DoubleslitSimulator_init (lit (650 # 1000000000)) (lit (50 # 1000000))
                           (lit (200 # 1000000)) (lit 1).


(** ** A worked signal

    A triangle wave of period 24 over 100 samples, with values between 0
    and 1, on which the analyser can be run. *)

Definition triangle (i : nat) : Q :=
  let m := Nat.modulo i 24 in
  if Nat.ltb m 12 then (Z.of_nat m # 12)%Q else (Z.of_nat (24 - m) # 12)%Q.

Definition triangle_signal : list Q := map triangle (seq 0 100).

(** The same wave lifted into the band from 0.92 to 1. *)
Definition high_signal : list Q :=
  map (fun i => (23 # 25) + (2 # 25) * triangle i)%Q (seq 0 100).

(** A short signal with a flat top, a single spike and a flat top that
    reaches neither end. *)
Definition plateau_signal : list Q :=
  [0; 1; 1; 1; 0; 2; 0; 3; 3; 1; 5]%Q.

(** ** Predicates for the coverage of the distance condition *)

(** Two positions of [peaks] hold indices less than [distance] apart. *)
Definition near (peaks : list nat) (distance a b : nat) : Prop :=
  (Z.abs (Z.of_nat (nth a peaks O) - Z.of_nat (nth b peaks O))
   < Z.of_nat distance)%Z.

(** Second invariant of the loop of [_select_by_peak_distance]: a position
    that was switched off lies near a kept position that has had its
    turn. *)
Definition covered (peaks : list nat) (distance : nat)
           (keep : list bool) (done : list nat) : Prop :=
  forall b,
    b < length peaks -> nth b keep false = false ->
    exists a, In a done /\ a < length peaks /\
              nth a keep false = true /\ near peaks distance a b.

(** ** The hand-written peak loop

    [example_basic_simulation], [test_simulation] and the tests of
    [test_double_slit.py] find bright fringes with the same loop:
    [for i in range(1, len(intensity)-1)], appending [i] when
    [intensity[i]] exceeds both neighbours and a threshold. *)

Section PeakLoop.
Context {F : Type} `{Cmp F}.

Definition is_bright_peak (intensity : list F) (threshold : F) (i : nat)
  : bool :=
  flt (item intensity (i - 1)) (item intensity i)
  && flt (item intensity (i + 1)) (item intensity i)
  && flt threshold (item intensity i).

Definition peak_loop (intensity : list F) (threshold : F) : list nat :=
  fold_left
    (fun peaks i =>
       if is_bright_peak intensity threshold i then peaks ++ [i] else peaks)
    (seq 1 (length intensity - 1 - 1)) [].

End PeakLoop.

(** A comparison law the peak loop needs besides [CmpLaws]: what is
    strictly below is below. *)
Class OrderLaws (F : Type) `{Cmp F} : Prop := {
  flt_fle : forall a b, flt a b = true -> fle a b = true
}.

(** ** Fringe spacing from detected peaks

    [test_fringe_spacing_accuracy] and [example_basic_simulation]: when at
    least three peaks were found, the mean of the differences of their
    positions.  The peaks are indices of the grid, as the peak loop
    produces them; [item] is read inside the grid only. *)

Section FringeSpacing.
Context {F : Type} `{Arith F}.



End FringeSpacing.

(** ** The simplified simulator of [test_basic_simulation.py] *)

Module Simple.
Section Simple.
Context {F : Type} `{Arith F}.

Record SimpleWaveFunction : Type := {
  wavelength : F;
  amplitude : F;
  k : F
}.

Definition SimpleWaveFunction_init (wavelength amplitude : F)
  : SimpleWaveFunction :=
  {| wavelength := wavelength;
     amplitude := amplitude;
     k := fdiv (fmul (lit 2) fpi) wavelength |}.

Record SimpleDoubleslitSimulator : Type := {
  wave : SimpleWaveFunction;
  slit_width : F;
  slit_separation : F;
  screen_distance : F
}.

Definition SimpleDoubleslitSimulator_init
    (wavelength slit_width slit_separation screen_distance : F)
  : SimpleDoubleslitSimulator :=
  {| wave := SimpleWaveFunction_init wavelength (lit 1);
     slit_width := slit_width;
     slit_separation := slit_separation;
     screen_distance := screen_distance |}.

Variable self : SimpleDoubleslitSimulator.

Definition double_slit_intensity (y_positions : list F) : list F :=
  let theta := map (fun y => farctan (fdiv y (screen_distance self)))
                   y_positions in
  let beta :=
    map (fun t => fdiv (fmul (fmul fpi (slit_width self)) (fsin t))
                       (wavelength (wave self))) theta in
  let beta_safe := np_where (fun b => flt (fabs b) eps) eps beta in
  let single_slit_term := map (fun b => sq (fdiv (fsin b) b)) beta_safe in
  let delta :=
    map (fun t => fdiv (fmul (fmul fpi (slit_separation self)) (fsin t))
                       (wavelength (wave self))) theta in
  let interference_term := map (fun d => sq (fcos d)) delta in
  map2 fmul single_slit_term interference_term.

Definition simulate_experiment (screen_width : F) (resolution : Z)
  : result (list F * list F) :=
  y_positions <-
    np_linspace (fdiv (fneg screen_width) (lit 2))
                (fdiv screen_width (lit 2)) resolution ;;
  let intensity := double_slit_intensity y_positions in
  m <- np_max intensity ;;
  Ok (y_positions, map (fun v => fdiv v m) intensity).

End Simple.
End Simple.

(** ** Complex amplitude of a wave, over the real numbers

    [amplitude_at_point] computes [amplitude * np.exp(1j * phase)]; a
    complex number is a pair of reals. *)






(** ** Images: [load_image] and [extract_line_profile]

    A grayscale image is a list of rows of bytes (an array of [uint8], all
    rows of one length).  Decoding a file and converting it to grayscale
    are OpenCV's work and stay parameters. *)

Inductive image_exn : Type :=
| FileNotFoundError (msg : string)
| IndexError (msg : string)
| Numpy (e : exn).

Inductive image_result (A : Type) : Type :=
| Loaded (a : A)
| Failed (e : image_exn).

Arguments Loaded {A} a.
Arguments Failed {A} e.

Definition msg_could_not_load : string := "Could not load image: ".
Definition msg_out_of_bounds : string :=
  "index %d is out of bounds for axis %d with size %d".

(** [astype(int)] on a float: truncation towards zero. *)
Class Trunc (F : Type) : Type := {
  ftrunc : F -> Z
}.

Definition Rtrunc (x : R) : Z :=
  if Rle_dec 0 x then Int_part x else (- Int_part (- x))%Z.

#[export] Instance Trunc_R : Trunc R := {| ftrunc := Rtrunc |}.

(** An index along an axis of [size] entries: non-negative indices count
    from the start, negative ones from the end, anything else is out of
    bounds. *)
Definition np_index (size : nat) (i : Z) : option nat :=
  if ((0 <=? i) && (i <? Z.of_nat size))%Z then Some (Z.to_nat i)
  else if ((- Z.of_nat size <=? i) && (i <? 0))%Z
       then Some (Z.to_nat (i + Z.of_nat size))
       else None.

(** [image[y, x]]. *)
Definition pixel_at (image : list (list Byte.byte)) (y x : Z)
  : option Byte.byte :=
  match np_index (length image) y with
  | None => None
  | Some r =>
      match nth_error image r with
      | None => None
      | Some row =>
          match np_index (length row) x with
          | None => None
          | Some c => nth_error row c
          end
      end
  end.

(** [image[y_coords, x_coords]] for two index arrays of one length. *)
Fixpoint gather (image : list (list Byte.byte)) (y_coords x_coords : list Z)
  : option (list Byte.byte) :=
  match y_coords, x_coords with
  | y :: ys, x :: xs =>
      match pixel_at image y x, gather image ys xs with
      | Some p, Some rest => Some (p :: rest)
      | _, _ => None
      end
  | _, _ => Some []
  end.

Section Images.
Context {F : Type} `{Arith F} `{Trunc F}.

(** [a.astype(float) / 255.0]. *)
Definition to_unit_scale (a : list Byte.byte) : list F :=
  map (fun b => fdiv (of_Z (Z.of_nat (Byte.to_nat b))) (lit 255)) a.

Definition extract_line_profile (image : list (list Byte.byte))
    (start_point end_point : Z * Z) : image_result (list F) :=
  let '(x0, y0) := start_point in
  let '(x1, y1) := end_point in
  let num_points :=
    ftrunc (fsqrt (of_Z ((x1 - x0) ^ 2 + (y1 - y0) ^ 2))) in
  match np_linspace (of_Z x0) (of_Z x1) num_points,
        np_linspace (of_Z y0) (of_Z y1) num_points with
  | Ok xs, Ok ys =>
      let x_coords := map ftrunc xs in
      let y_coords := map ftrunc ys in
      match gather image y_coords x_coords with
      | Some intensity_profile => Loaded (to_unit_scale intensity_profile)
      | None => Failed (IndexError msg_out_of_bounds)
      end
  | Raise e, _ => Failed (Numpy e)
  | _, Raise e => Failed (Numpy e)
  end.

Variable bgr_image : Type.
Variable cv2_imread : string -> option bgr_image.
Variable cv2_cvtColor_gray : bgr_image -> list (list Byte.byte).

(** The method stores the profile in [self.experimental_data]; the analyser
    after the call is returned with the profile. *)
Definition load_image (self : InterferenceAnalyzer F) (image_path : string)
  : image_result (InterferenceAnalyzer F * list F) :=
  match cv2_imread image_path with
  | None =>
      Failed (FileNotFoundError (String.append msg_could_not_load image_path))
  | Some image =>
      let gray := cv2_cvtColor_gray image in
      let height := length gray in
      match nth_error gray (height / 2) with
      | None => Failed (IndexError msg_out_of_bounds)
      | Some center_line =>
          let intensity := to_unit_scale center_line in
          Loaded ({| experimental_data := Some intensity;
                     theoretical_data := theoretical_data self |},
                  intensity)
      end
  end.

End Images.


(** ** Sample images *)

(** Two rows of three pixels. *)
Definition sample_gray : list (list Byte.byte) :=
  [[Byte.x00; Byte.x40; Byte.x80]; [Byte.xff; Byte.x10; Byte.x20]].

(** A decoder that knows one file. *)
Definition sample_imread (image_path : string) : option unit :=
  if String.eqb image_path "pattern.png" then Some tt else None.

Definition sample_cvtColor (image : unit) : list (list Byte.byte) :=
  sample_gray.

(** ** Rounding to binary64 *)

(** The power [2 ** e] for an integer exponent. *)
Definition pow2 (e : Z) : R := powerRZ 2 e.

(** The binary exponent of a non-zero real [x]:
    [pow2 (mag2 x - 1) <= |x| < pow2 (mag2 x)]. *)
Definition mag2 (x : R) : Z := up (ln (Rabs x) / ln 2).

(** The nearest integer, ties going to the even one. *)
Definition nearest_even (r : R) : Z :=
  let f := Int_part r in
  match total_order_T (r - IZR f) (/ 2) with
  | inleft (left _) => f
  | inleft (right _) => if Z.even f then f else (f + 1)%Z
  | inright _ => (f + 1)%Z
  end.

(** Round to nearest, ties to even, with 53 significant bits and the
    smallest exponent -1074 of binary64 (gradual underflow).  There is
    no largest exponent: overflow is not modelled. *)
Definition round_b64 (x : R) : R :=
  match Req_dec_T x 0 with
  | left _ => 0%R
  | right _ =>
      let e := Z.max (mag2 x - 53) (-1074) in
      (IZR (nearest_even (x * pow2 (- e))) * pow2 e)%R
  end.

(** The numbers of the format. *)
Definition representable (x : R) : Prop :=
  exists m e : Z,
    x = (IZR m * pow2 e)%R /\ (Z.abs m < 2 ^ 53)%Z /\ (-1074 <= e)%Z.

(** ** Binary64 arithmetic

    A binary64 number is kept as the real number it stands for; every
    operation computes on the reals and rounds the result, as IEEE 754
    prescribes for the four operations and the square root, and as Python
    does for decimal literals and [np.pi].  The elementary functions are
    taken as correctly rounded; the lemmas below use that for the sine of
    [1e-10] only, and bounds such as [|sin x| <= 1] elsewhere.  Infinities
    and NaN are not represented: where the code produces one, the model
    has a real number, and nothing is read off it there except what also
    holds of the code. *)
Record b64 : Type := B64 { b64R : R }.

Definition b64_round (x : R) : b64 := B64 (round_b64 x).

Definition b64_op1 (f : R -> R) (x : b64) : b64 := b64_round (f (b64R x)).

Definition b64_op2 (f : R -> R -> R) (x y : b64) : b64 :=
  b64_round (f (b64R x) (b64R y)).

#[export] Instance Cmp_b64 : Cmp b64 := {|
  fneg := fun x => B64 (- b64R x);
  flt := fun x y => Rltb (b64R x) (b64R y);
  fle := fun x y => Rleb (b64R x) (b64R y);
  feq := fun x y => Reqb (b64R x) (b64R y);
  lit := fun q => b64_round (Q2R q);
  argsort := fun l => insertion_argsort Rleb (map b64R l)
|}.

#[export] Instance Arith_b64 : Arith b64 := {|
  fadd := b64_op2 Rplus;
  fsub := b64_op2 Rminus;
  fmul := b64_op2 Rmult;
  fdiv := b64_op2 Rdiv;
  fabs := fun x => B64 (Rabs (b64R x));
  fmaximum := fun x y => B64 (Rmax (b64R x) (b64R y));
  fminimum := fun x y => B64 (Rmin (b64R x) (b64R y));
  fsqrt := b64_op1 sqrt;
  fsin := b64_op1 sin;
  fcos := b64_op1 cos;
  farctan := b64_op1 atan;
  fpi := b64_round PI;
  of_Z := fun z => b64_round (IZR z)
|}.


(** A valid setup whose pattern underflows: a slit [2 ** 600] metres
    wide, the other three parameters being 1. *)
Definition underflow_simulator : DoubleslitSimulator b64 :=
  DoubleslitSimulator_init (lit 1) (lit (2 ^ 600 # 1)) (lit 1) (lit 1).


(** The binary64 number written [1e-10]. *)
Definition eps_b64 : R := IZR 7737125245533627 * pow2 (-86).

Ltac b64_ops :=
  cbn [fadd fsub fmul fdiv fneg fabs flt fle feq fmaximum fminimum fsqrt
       fsin fcos farctan fpi of_Z lit Arith_b64 Cmp_b64];
  unfold b64_op1, b64_op2, b64_round; cbn [b64R].

(** A setup of four positive parameters, in binary64. *)
Definition valid_setup_b64 (self : DoubleslitSimulator b64) : Prop :=
  (0 < b64R (wavelength (wave self)) /\ 0 < b64R (slit_width self) /\
   0 < b64R (slit_separation self) /\ 0 < b64R (screen_distance self))%R.

(** * Properties *)

(** ** The instances satisfy the comparison laws *)

Lemma insert_by_perm {A : Type} (le : A -> A -> bool) (p : nat * A) l :
  Permutation (insert_by le p l) (p :: l).
Proof.
  induction l as [|q t IH]; simpl.
  - apply Permutation_refl.
  - destruct (le (snd p) (snd q)).
    + apply Permutation_refl.
    + eapply perm_trans; [apply perm_skip, IH | apply perm_swap].
Qed.

Lemma map_fst_combine_seq {A : Type} (l : list A) (s : nat) :
  map fst (combine (seq s (length l)) l) = seq s (length l).
Proof.
  revert s. induction l as [|a t IH]; intros s; simpl; [reflexivity|].
  now rewrite IH.
Qed.

Lemma insertion_argsort_perm {A : Type} (le : A -> A -> bool) (l : list A) :
  Permutation (insertion_argsort le l) (seq 0 (length l)).
Proof.
  unfold insertion_argsort.
  rewrite <- (map_fst_combine_seq l 0) at 2.
  apply Permutation_map.
  induction (combine (seq 0 (length l)) l) as [|p t IH]; simpl.
  - apply Permutation_refl.
  - eapply perm_trans; [apply insert_by_perm | apply perm_skip, IH].
Qed.

Lemma Rltb_true a b : Rltb a b = true <-> (a < b)%R.
Proof. unfold Rltb. destruct (Rlt_dec a b); split; intros; try easy. Qed.

Lemma Rleb_true a b : Rleb a b = true <-> (a <= b)%R.
Proof. unfold Rleb. destruct (Rle_dec a b); split; intros; try easy. Qed.

Lemma Reqb_true a b : Reqb a b = true <-> a = b.
Proof. unfold Reqb. destruct (Req_dec_T a b); split; intros; try easy. Qed.

Lemma Rltb_false a b : Rltb a b = false <-> (b <= a)%R.
Proof.
  unfold Rltb. destruct (Rlt_dec a b); split; intros; try easy; lra.
Qed.

Lemma Rleb_false a b : Rleb a b = false <-> (b < a)%R.
Proof.
  unfold Rleb. destruct (Rle_dec a b); split; intros; try easy; lra.
Qed.

#[export] Instance CmpLaws_R : CmpLaws R.
Proof.
  constructor; simpl.
  - intros a b Hab. apply Rltb_true in Hab. apply Rltb_false. lra.
  - intros a b c Hac. apply Reqb_true in Hac. now subst.
  - intros a b c Hac. apply Reqb_true in Hac. now subst.
  - intros a b. unfold Rltb.
    destruct (Rlt_dec (- a) (- b)), (Rlt_dec b a); try reflexivity; lra.
  - intros a b. unfold Reqb.
    destruct (Req_dec_T (- a) (- b)), (Req_dec_T a b); try reflexivity; lra.
  - intros a b. unfold Rleb.
    destruct (Rle_dec (- a) (- b)), (Rle_dec b a); try reflexivity; lra.
  - intros l. apply insertion_argsort_perm.
Qed.

Lemma Qltb_true a b : Qltb a b = true <-> (a < b)%Q.
Proof.
  unfold Qltb. rewrite negb_true_iff.
  split.
  - intros Hf. apply Qnot_le_lt. intros Hle.
    apply Qle_bool_iff in Hle. congruence.
  - intros Hlt. destruct (Qle_bool b a) eqn:E; [|reflexivity].
    apply Qle_bool_iff in E. exfalso. apply (Qlt_not_le _ _ Hlt E).
Qed.

Lemma Qltb_false a b : Qltb a b = false <-> (b <= a)%Q.
Proof.
  unfold Qltb. rewrite negb_false_iff. apply Qle_bool_iff.
Qed.

Lemma bool_eq_iff (b1 b2 : bool) : (b1 = true <-> b2 = true) -> b1 = b2.
Proof.
  destruct b1, b2; intros [H1 H2]; try reflexivity.
  - symmetry. now apply H1.
  - now apply H2.
Qed.

#[export] Instance CmpLaws_Q : CmpLaws Q.
Proof.
  constructor; simpl.
  - intros a b Hab. apply Qltb_true in Hab. apply Qltb_false.
    apply Qlt_le_weak, Hab.
  - intros a b c Hac. apply Qeq_bool_iff in Hac. apply bool_eq_iff.
    rewrite !Qltb_true. now rewrite Hac.
  - intros a b c Hac. apply Qeq_bool_iff in Hac. apply bool_eq_iff.
    rewrite !Qltb_true. now rewrite Hac.
  - intros a b. apply bool_eq_iff. rewrite !Qltb_true.
    split; intros Hlt.
    + apply Qopp_lt_compat in Hlt. now rewrite !Qopp_involutive in Hlt.
    + now apply Qopp_lt_compat.
  - intros a b. apply bool_eq_iff. rewrite !Qeq_bool_iff.
    split; intros He.
    + rewrite <- (Qopp_involutive a), <- (Qopp_involutive b). now rewrite He.
    + now rewrite He.
  - intros a b. apply bool_eq_iff. rewrite !Qle_bool_iff.
    split; intros Hle.
    + apply Qopp_le_compat in Hle. now rewrite !Qopp_involutive in Hle.
    + now apply Qopp_le_compat.
  - intros l. apply insertion_argsort_perm.
Qed.

(** ** List facts shared by the proofs *)

Lemma map2_map_map {F : Type} `{Arith F} (f : F -> F -> F) (g h : F -> F)
      (l : list F) :
  map2 f (map g l) (map h l) = map (fun x => f (g x) (h x)) l.
Proof.
  induction l as [|a t IH]; simpl; [reflexivity|]. now rewrite IH.
Qed.

Lemma map2_length {F : Type} `{Arith F} (f : F -> F -> F) (xs ys : list F) :
  length xs = length ys -> length (map2 f xs ys) = length xs.
Proof.
  revert ys. induction xs as [|x t IH]; intros [|y ys] Hl; simpl in *;
    try reflexivity; try discriminate.
  f_equal. apply IH. now injection Hl.
Qed.

Lemma set_last_length {F : Type} `{Arith F} (xs : list F) (v : F) :
  length (set_last xs v) = length xs.
Proof.
  induction xs as [|x [|y t] IH]; simpl in *; try reflexivity.
  now rewrite IH.
Qed.

Lemma single_slit_intensity_length {F : Type} `{Arith F}
      (self : DoubleslitSimulator F) (ys : list F) :
  length (single_slit_intensity self ys) = length ys.
Proof.
  unfold single_slit_intensity, np_where. now rewrite !length_map.
Qed.

Lemma double_slit_intensity_length {F : Type} `{Arith F}
      (self : DoubleslitSimulator F) (ys : list F) :
  length (double_slit_intensity self ys) = length ys.
Proof.
  unfold double_slit_intensity, np_where.
  rewrite map2_length; now rewrite !length_map.
Qed.

Lemma np_linspace_ok {F : Type} `{Arith F} (start stop : F) (num : Z) :
  (0 <= num)%Z ->
  exists ys, np_linspace start stop num = Ok ys /\ length ys = Z.to_nat num.
Proof.
  intros Hn. unfold np_linspace.
  destruct (num <? 0)%Z eqn:E; [apply Z.ltb_lt in E; lia|].
  eexists. split; [reflexivity|]. unfold linspace_samples.
  assert (Hlen : forall A (g : F -> A) , length (map g (np_arange (Z.to_nat num)))
                       = Z.to_nat num).
  { intros. unfold np_arange. now rewrite !length_map, length_seq. }
  destruct (1 <? num)%Z; [rewrite set_last_length|];
    rewrite length_map;
    (destruct (0 <? num - 1)%Z; [destruct (feq _ _)|]); apply Hlen.
Qed.


Lemma simulate_experiment_shape {F : Type} `{Arith F}
      (self : DoubleslitSimulator F) (screen_width : F)
      (resolution : Z) (double_slit : bool) :
  match simulate_experiment self screen_width resolution double_slit with
  | Ok (y_positions, intensity) =>
      (1 <= resolution)%Z /\
      length y_positions = Z.to_nat resolution /\
      length intensity = Z.to_nat resolution
  | Raise _ => (resolution < 1)%Z
  end.
Proof.
  rename self into sim, screen_width into w, resolution into n,
    double_slit into mode.
  unfold simulate_experiment.
  destruct (Z.ltb_spec n 0) as [Hneg|Hpos].
  - unfold np_linspace. destruct (Z.ltb_spec n 0); [simpl; lia|lia].
  - destruct (np_linspace_ok (fdiv (fneg w) (lit 2)) (fdiv w (lit 2)) n Hpos)
      as (ys & -> & Hlen).
    simpl. unfold fraunhofer_diffraction.
    set (raw := if mode then double_slit_intensity sim ys
                else single_slit_intensity sim ys).
    assert (Hraw : length raw = length ys).
    { subst raw. destruct mode;
        [apply double_slit_intensity_length|apply single_slit_intensity_length]. }
    destruct raw as [|x t] eqn:E.
    + simpl. simpl in Hraw. lia.
    + simpl. rewrite length_map. simpl in Hraw. lia.
Qed.

(** ** The intensity model, for every arithmetic *)

(** C2. The raw double-slit intensity is, position by position, the raw
    single-slit intensity (same beta, same epsilon substitution) times
    cos^2(delta), with delta = pi * slit_separation * sin(atan(y /
    screen_distance)) / wavelength.  This holds in every arithmetic, binary64
    included, because both methods evaluate the same expressions. *)
Theorem double_slit_is_single_times_interference :
  forall (F : Type) (C : Cmp F) (A : Arith F)
         (self : DoubleslitSimulator F) (y_positions : list F),
    double_slit_intensity self y_positions =
      map2 fmul (single_slit_intensity self y_positions)
           (map (fun y => sq (fcos (delta_at self y))) y_positions)
    /\ forall i,
        nth_error (double_slit_intensity self y_positions) i =
          match nth_error (single_slit_intensity self y_positions) i,
                nth_error y_positions i with
          | Some s, Some y => Some (fmul s (sq (fcos (delta_at self y))))
          | _, _ => None
          end.
Proof.
  intros F C A self ys.
  assert (E : double_slit_intensity self ys =
              map2 fmul (single_slit_intensity self ys)
                   (map (fun y => sq (fcos (delta_at self y))) ys)).
  { unfold double_slit_intensity, single_slit_intensity, np_where, delta_at.
    now rewrite !map_map. }
  split; [exact E|].
  rewrite E. clear E.
  generalize (single_slit_intensity_length self ys).
  generalize (single_slit_intensity self ys) as ss.
  induction ys as [|y t IH]; intros [|s ss] Hl i; simpl in *; try discriminate.
  - now destruct i.
  - destruct i as [|i]; simpl; [reflexivity|].
    apply IH. now injection Hl.
Qed.

(** ** Errors raised by the model and by the analyser *)

(** C6 (amended). [simulate_experiment] validates nothing: for every
    resolution of at least 1 and every screen width it returns a grid and an
    intensity array of [resolution] entries; it raises exactly when the
    resolution is below 1 (inside NumPy). *)
Theorem simulate_experiment_fails_iff_no_samples :
  forall (F : Type) (C : Cmp F) (A : Arith F)
         (self : DoubleslitSimulator F) (screen_width : F)
         (resolution : Z) (double_slit : bool),
    match simulate_experiment self screen_width resolution double_slit with
    | Ok (y_positions, intensity) =>
        (1 <= resolution)%Z /\
        length y_positions = Z.to_nat resolution /\
        length intensity = Z.to_nat resolution
    | Raise _ => (resolution < 1)%Z
    end.
Proof. intros. apply simulate_experiment_shape. Qed.


(** C8. Comparing before any experimental data was stored, or with an
    empty experimental sequence, raises a [ValueError] and returns nothing:
    the explicit guard in the first case, [np.max] on the empty theoretical
    pattern in the second. *)
Theorem compare_with_theory_no_data :
  forall (F : Type) (C : Cmp F) (A : Arith F)
         (self : InterferenceAnalyzer F) (simulator : DoubleslitSimulator F)
         (screen_width : F),
    experimental_data self = None \/ experimental_data self = Some [] ->
    compare_with_theory self simulator screen_width =
      Raise (ValueError (match experimental_data self with
                         | None => msg_no_data
                         | Some _ => msg_empty_max
                         end)).
Proof.
  intros F C A self simulator w [Hn|He]; unfold compare_with_theory;
    rewrite ?Hn, ?He; reflexivity.
Qed.

(** ** The scan for local maxima *)

Section PeakProofs.
Context {F : Type} `{Cmp F}.

Lemma skip_plateau_spec (x : list F) (xi : F) :
  forall n s,
    let a := skip_plateau x xi n s in
    s <= a <= s + n /\
    (forall j, s <= j < a -> feq (item x j) xi = true).
Proof.
  induction n as [|n IH]; intros s; simpl.
  - split; [lia|]. intros j Hj. lia.
  - destruct (feq (item x s) xi) eqn:E.
    + destruct (IH (S s)) as [Hb Hp]. split; [lia|].
      intros j Hj. destruct (Nat.eq_dec j s) as [->|Hne]; [exact E|].
      apply Hp. lia.
    + split; [lia|]. intros j Hj. lia.
Qed.

Lemma is_maximum_local (x : list F) (m : maximum) :
  is_maximum_of x m -> local_maximum x (midpoint m).
Proof.
  intros (H1 & H2 & H3 & H4 & H5 & H6 & H7).
  exists (left_edge m), (right_edge m).
  assert (Hlo : left_edge m <= (left_edge m + right_edge m) / 2).
  { apply Nat.div_le_lower_bound; lia. }
  assert (Hhi : (left_edge m + right_edge m) / 2 <= right_edge m).
  { apply Nat.Div0.div_le_upper_bound. lia. }
  rewrite H4. repeat split; auto; lia.
Qed.

Lemma local_maxima_loop_spec (x : list F) :
  forall fuel i,
    1 <= i ->
    Forall (fun m => i <= left_edge m /\ is_maximum_of x m)
           (local_maxima_loop x (length x - 1) fuel i).
Proof.
  induction fuel as [|fuel IH]; intros i Hi; simpl; [constructor|].
  destruct (Nat.ltb_spec i (length x - 1)) as [Hlt|Hge]; [|constructor].
  destruct (flt (item x (i - 1)) (item x i)) eqn:Eup.
  - pose proof (skip_plateau_spec x (item x i) (length x - 1 - (i + 1)) (i + 1))
      as [Hb Hp].
    set (a := skip_plateau x (item x i) (length x - 1 - (i + 1)) (i + 1)) in *.
    destruct (flt (item x a) (item x i)) eqn:Edn.
    + constructor.
      * simpl. split; [lia|].
        unfold is_maximum_of; simpl.
        replace (a - 1 + 1) with a by lia.
        repeat split; try lia; auto.
        intros j Hj. apply Hp. lia.
      * eapply Forall_impl; [|apply IH; lia].
        intros m [Hm1 Hm2]. split; [lia|exact Hm2].
    + eapply Forall_impl; [|apply IH; lia].
      intros m [Hm1 Hm2]. split; [lia|exact Hm2].
  - eapply Forall_impl; [|apply IH; lia].
    intros m [Hm1 Hm2]. split; [lia|exact Hm2].
Qed.

Lemma midpoint_bounds (x : list F) (m : maximum) :
  is_maximum_of x m -> left_edge m <= midpoint m <= right_edge m.
Proof.
  intros (H1 & H2 & H3 & H4 & _). rewrite H4. split.
  - apply Nat.div_le_lower_bound; lia.
  - apply Nat.Div0.div_le_upper_bound. lia.
Qed.

Lemma local_maxima_loop_sorted (x : list F) :
  forall fuel i,
    1 <= i ->
    StronglySorted lt (map midpoint (local_maxima_loop x (length x - 1) fuel i)).
Proof.
  induction fuel as [|fuel IH]; intros i Hi; cbn [local_maxima_loop];
    [constructor|].
  destruct (Nat.ltb_spec i (length x - 1)) as [Hlt|Hge]; [|constructor].
  destruct (flt (item x (i - 1)) (item x i)) eqn:Eup; [|apply IH; lia].
  pose proof (skip_plateau_spec x (item x i) (length x - 1 - (i + 1)) (i + 1))
    as [Hb Hp].
  set (a := skip_plateau x (item x i) (length x - 1 - (i + 1)) (i + 1)) in *.
  destruct (flt (item x a) (item x i)) eqn:Edn; [|apply IH; lia].
  cbn [map midpoint]. constructor; [apply IH; lia|].
  rewrite Forall_map.
  eapply Forall_impl; [|apply (local_maxima_loop_spec x fuel (a + 1)); lia].
  intros m [Hm1 Hm2]. apply midpoint_bounds in Hm2.
  assert ((i + (a - 1)) / 2 <= a - 1).
  { apply Nat.Div0.div_le_upper_bound. lia. }
  lia.
Qed.

(** The fuel given by [local_maxima_1d] never runs out: any amount of at
    least [i_max - i] yields the same scan. *)
Lemma local_maxima_loop_fuel (x : list F) (i_max : nat) :
  forall fuel1 fuel2 i,
    i_max - i <= fuel1 -> i_max - i <= fuel2 ->
    local_maxima_loop x i_max fuel1 i = local_maxima_loop x i_max fuel2 i.
Proof.
  induction fuel1 as [|fuel1 IH]; intros fuel2 i H1 H2.
  - destruct fuel2 as [|fuel2]; simpl; [reflexivity|].
    destruct (Nat.ltb_spec i i_max); [lia|reflexivity].
  - destruct fuel2 as [|fuel2]; simpl.
    + destruct (Nat.ltb_spec i i_max); [lia|reflexivity].
    + destruct (Nat.ltb_spec i i_max) as [Hlt|Hge]; [|reflexivity].
      pose proof (skip_plateau_spec x (item x i) (i_max - (i + 1)) (i + 1))
        as [Hb _].
      destruct (flt (item x (i - 1)) (item x i)); [|apply IH; lia].
      destruct (flt _ (item x i)); [f_equal|]; apply IH; lia.
Qed.

Corollary local_maxima_1d_fuel (x : list F) (fuel : nat) :
  length x <= fuel ->
  local_maxima_loop x (length x - 1) fuel 1 = local_maxima_1d x.
Proof.
  intros Hf. unfold local_maxima_1d. apply local_maxima_loop_fuel; lia.
Qed.

End PeakProofs.

(** ** Masks and in-place updates *)

Lemma set_at_length {A : Type} (l : list A) (i : nat) (v : A) :
  length (set_at l i v) = length l.
Proof.
  revert i. induction l as [|a t IH]; intros [|i]; simpl; auto.
Qed.

Lemma nth_set_at_same {A : Type} (l : list A) (i : nat) (v d : A) :
  i < length l -> nth i (set_at l i v) d = v.
Proof.
  revert i. induction l as [|a t IH]; intros [|i] Hi; simpl in *; try lia; auto.
  apply IH. lia.
Qed.

Lemma nth_set_at_other {A : Type} (l : list A) (i j : nat) (v d : A) :
  i <> j -> nth j (set_at l i v) d = nth j l d.
Proof.
  revert i j. induction l as [|a t IH]; intros [|i] [|j] Hne; simpl; auto;
    try lia.
Qed.

Lemma nth_set_at_false (l : list bool) (i j : nat) :
  nth j (set_at l i false) false = true -> nth j l false = true.
Proof.
  destruct (Nat.eq_dec i j) as [->|Hne].
  - destruct (Nat.lt_ge_cases j (length l)) as [Hlt|Hge].
    + rewrite nth_set_at_same by exact Hlt. discriminate.
    + rewrite nth_overflow; [discriminate|]. now rewrite set_at_length.
  - now rewrite nth_set_at_other.
Qed.

Lemma mask_map_filter {A : Type} (f : A -> bool) (l : list A) :
  mask l (map f l) = filter f l.
Proof.
  induction l as [|a t IH]; simpl; [reflexivity|].
  rewrite IH. reflexivity.
Qed.

Lemma In_mask {A : Type} (d : A) (l : list A) :
  forall keep u,
    In u (mask l keep) ->
    exists a, a < length l /\ nth a l d = u /\ nth a keep false = true.
Proof.
  induction l as [|x t IH]; intros [|b keep] u Hin; simpl in *; try contradiction.
  destruct b.
  - destruct Hin as [<-|Hin].
    + exists 0. repeat split; lia.
    + destruct (IH keep u Hin) as (a & Ha & Hn & Hk).
      exists (S a). repeat split; auto; lia.
  - destruct (IH keep u Hin) as (a & Ha & Hn & Hk).
    exists (S a). repeat split; auto; lia.
Qed.

Lemma In_mask_In {A : Type} (l : list A) :
  forall keep u, In u (mask l keep) -> In u l.
Proof.
  induction l as [|x t IH]; intros [|b keep] u Hin; simpl in *; try contradiction.
  destruct b; [destruct Hin as [->|Hin]|]; eauto.
Qed.

Lemma mask_sorted (l : list nat) :
  forall keep, StronglySorted lt l -> StronglySorted lt (mask l keep).
Proof.
  induction l as [|x t IH]; intros [|b keep] Hs; simpl; try constructor.
  apply StronglySorted_inv in Hs. destruct Hs as [Hs Hall].
  destruct b; [|now apply IH].
  constructor; [now apply IH|].
  rewrite Forall_forall in *. intros u Hu. apply Hall.
  eapply In_mask_In, Hu.
Qed.

Lemma sorted_nth (l : list nat) :
  StronglySorted lt l ->
  forall a b, a < b -> b < length l -> nth a l 0 < nth b l 0.
Proof.
  induction 1 as [|x t Hs IH Hall]; intros a b Hab Hb; simpl in *; [lia|].
  destruct b as [|b]; [lia|]. destruct a as [|a].
  - rewrite Forall_forall in Hall. apply Hall, nth_In. lia.
  - apply IH; lia.
Qed.

Lemma sorted_pairwise (P : nat -> nat -> Prop) (l : list nat) :
  StronglySorted lt l ->
  (forall u v, In u l -> In v l -> u < v -> P u v) ->
  StronglySorted P l.
Proof.
  induction 1 as [|x t Hs IH Hall]; intros HP; constructor.
  - apply IH. intros u v Hu Hv. apply HP; now right.
  - rewrite Forall_forall in *. intros v Hv.
    apply HP; [now left|now right|now apply Hall].
Qed.

Lemma sorted_consecutive (P : nat -> nat -> Prop) (l : list nat) :
  StronglySorted P l ->
  forall i, S i < length l -> P (nth i l 0) (nth (S i) l 0).
Proof.
  induction 1 as [|x t Hs IH Hall]; intros i Hi; simpl in *; [lia|].
  destruct i as [|i].
  - rewrite Forall_forall in Hall. apply Hall. destruct t; simpl in *; [lia|].
    now left.
  - apply IH. lia.
Qed.

(** ** Suppression of close neighbours *)

Section Distance.
Variable peaks : list nat.
Variable distance : nat.
Hypothesis peaks_sorted : StronglySorted lt peaks.

Lemma mark_earlier_spec (pj : nat) :
  forall k1 keep,
    k1 <= length keep ->
    let keep' := mark_earlier peaks pj distance k1 keep in
    length keep' = length keep /\
    (forall j, k1 <= j -> nth j keep' false = nth j keep false) /\
    (forall j, nth j keep' false = true -> nth j keep false = true) /\
    (forall j, j < k1 ->
       (forall j', j <= j' < k1 -> within pj (nth j' peaks 0) distance = true) ->
       nth j keep' false = false).
Proof.
  induction k1 as [|k0 IH]; intros keep Hk; cbn [mark_earlier].
  - repeat split; auto. intros j Hj. lia.
  - destruct (within pj (nth k0 peaks 0) distance) eqn:E.
    + destruct (IH (set_at keep k0 false)) as (H1 & H2 & H3 & H4).
      { rewrite set_at_length. lia. }
      rewrite set_at_length in H1.
      split; [exact H1|]. split; [|split].
      * intros j Hj. rewrite H2 by lia. apply nth_set_at_other. lia.
      * intros j Hj. apply H3 in Hj. eapply nth_set_at_false, Hj.
      * intros j Hj Hall.
        destruct (Nat.eq_dec j k0) as [->|Hne].
        -- rewrite H2 by lia. apply nth_set_at_same. lia.
        -- apply H4; [lia|]. intros j' Hj'. apply Hall. lia.
    + repeat split; auto.
      intros j Hj Hall. rewrite Hall in E; [discriminate|lia].
Qed.

Lemma mark_later_spec (pj : nat) :
  forall n k0 keep,
    k0 + n <= length keep ->
    let keep' := mark_later peaks pj distance n k0 keep in
    length keep' = length keep /\
    (forall j, j < k0 -> nth j keep' false = nth j keep false) /\
    (forall j, nth j keep' false = true -> nth j keep false = true) /\
    (forall j, k0 <= j < k0 + n ->
       (forall j', k0 <= j' <= j -> within (nth j' peaks 0) pj distance = true) ->
       nth j keep' false = false).
Proof.
  induction n as [|n IH]; intros k0 keep Hk; cbn [mark_later].
  - repeat split; auto. intros j Hj. lia.
  - destruct (within (nth k0 peaks 0) pj distance) eqn:E.
    + destruct (IH (S k0) (set_at keep k0 false)) as (H1 & H2 & H3 & H4).
      { rewrite set_at_length. lia. }
      rewrite set_at_length in H1.
      split; [exact H1|]. split; [|split].
      * intros j Hj. rewrite H2 by lia. apply nth_set_at_other. lia.
      * intros j Hj. apply H3 in Hj. eapply nth_set_at_false, Hj.
      * intros j Hj Hall.
        destruct (Nat.eq_dec j k0) as [->|Hne].
        -- rewrite H2 by lia. apply nth_set_at_same. lia.
        -- apply H4; [lia|]. intros j' Hj'. apply Hall. lia.
    + repeat split; auto.
      intros j Hj Hall. rewrite Hall in E; [discriminate|lia].
Qed.

Lemma suppress_around_spec (keep : list bool) (j : nat) :
  length keep = length peaks ->
  j < length peaks ->
  let keep' := suppress_around peaks distance keep j in
  length keep' = length peaks /\
  (forall b, nth b keep' false = true -> nth b keep false = true) /\
  (nth j keep false = true ->
   forall b, b < length peaks -> b <> j -> nth b keep' false = true ->
             far peaks distance j b).
Proof.
  intros Hlen Hj. unfold suppress_around.
  destruct (nth j keep false) eqn:Ej.
  2:{ repeat split; auto. discriminate. }
  set (pj := nth j peaks 0).
  destruct (mark_earlier_spec pj j keep) as (E1 & E2 & E3 & E4); [lia|].
  set (k1 := mark_earlier peaks pj distance j keep) in *.
  destruct (mark_later_spec pj (length peaks - (j + 1)) (j + 1) k1)
    as (L1 & L2 & L3 & L4); [lia|].
  set (k2 := mark_later peaks pj distance (length peaks - (j + 1)) (j + 1) k1)
    in *.
  split; [lia|]. split; [intros b Hb; auto|].
  intros _ b Hb Hne Hkept. unfold far. fold pj.
  destruct (Nat.lt_ge_cases b j) as [Hlt|Hge].
  - (* an earlier peak that survived is out of reach *)
    destruct (Z.ltb_spec (Z.of_nat pj - Z.of_nat (nth b peaks 0))
                         (Z.of_nat distance)) as [Hnear|Hfar]; [|lia].
    exfalso.
    assert (Hb1 : nth b k1 false = false).
    { apply E4; [exact Hlt|]. intros j' Hj'. unfold within.
      apply Z.ltb_lt.
      destruct (Nat.eq_dec b j') as [<-|Hbj]; [exact Hnear|].
      pose proof (sorted_nth peaks peaks_sorted b j' ltac:(lia) ltac:(lia)). lia. }
    rewrite L2 in Hkept by lia. congruence.
  - destruct (Z.ltb_spec (Z.of_nat (nth b peaks 0) - Z.of_nat pj)
                         (Z.of_nat distance)) as [Hnear|Hfar]; [|lia].
    exfalso.
    assert (Hb2 : nth b k2 false = false).
    { apply L4; [lia|]. intros j' Hj'. unfold within.
      apply Z.ltb_lt.
      destruct (Nat.eq_dec b j') as [<-|Hbj]; [exact Hnear|].
      pose proof (sorted_nth peaks peaks_sorted j' b ltac:(lia) ltac:(lia)). lia. }
    congruence.
Qed.

Lemma fold_suppress_settled :
  forall order keep done,
    length keep = length peaks ->
    (forall j, In j order -> j < length peaks) ->
    settled peaks distance keep done ->
    let keep' := fold_left (suppress_around peaks distance) order keep in
    length keep' = length peaks /\ settled peaks distance keep' (order ++ done).
Proof.
  induction order as [|j order IH]; intros keep done Hlen Hin Hs;
    cbn [fold_left app].
  - split; assumption.
  - destruct (suppress_around_spec keep j Hlen) as (S1 & S2 & S3).
    { apply Hin. now left. }
    set (k1 := suppress_around peaks distance keep j) in *.
    destruct (IH k1 (j :: done) S1) as (I1 & I2).
    { intros j' Hj'. apply Hin. now right. }
    { intros a b Ha Hb Hne Hka Hkb. destruct Ha as [<-|Ha].
      - apply S3; auto.
      - apply Hs; auto. }
    split; [exact I1|].
    intros a b Ha Hb Hne Hka Hkb. apply I2; auto.
    apply in_or_app. destruct Ha as [<-|Ha]; [right; now left|].
    apply in_app_or in Ha. destruct Ha as [Ha|Ha]; [now left|right; now right].
Qed.

End Distance.

(** ** [find_peaks] *)

Section FindPeaksProofs.
Context {F : Type} `{CmpLaws F}.

Lemma flt_irrefl (a : F) : flt a a = false.
Proof.
  destruct (flt a a) eqn:E; [|reflexivity].
  pose proof (flt_asym _ _ E). congruence.
Qed.

Lemma feq_not_flt (a b : F) :
  feq a b = true -> flt a b = false /\ flt b a = false.
Proof.
  intros E. split.
  - rewrite (flt_feq_r a a b E). apply flt_irrefl.
  - rewrite (flt_feq_l a a b E). apply flt_irrefl.
Qed.

Lemma feq_flt (a b c : F) :
  feq a c = true -> feq b c = true -> flt a b = false.
Proof.
  intros Ea Eb. rewrite <- (flt_feq_r b a c Eb).
  exact (proj1 (feq_not_flt a c Ea)).
Qed.

Lemma select_by_peak_distance_gap (peaks : list nat) (priority : list F)
      (distance : nat) :
  StronglySorted lt peaks ->
  length priority = length peaks ->
  StronglySorted (fun u v => u + distance <= v)
                 (mask peaks (select_by_peak_distance peaks priority distance)).
Proof.
  intros Hs Hlen. unfold select_by_peak_distance.
  destruct (fold_suppress_settled peaks distance Hs
              (rev (argsort priority)) (repeat true (length peaks)) [])
    as [Hl Hset].
  - apply repeat_length.
  - intros j Hj. apply in_rev in Hj.
    apply (Permutation_in _ (argsort_perm priority)) in Hj.
    apply in_seq in Hj. lia.
  - intros a b [].
  - set (keep := fold_left (suppress_around peaks distance)
                           (rev (argsort priority))
                           (repeat true (length peaks))) in *.
    apply sorted_pairwise; [now apply mask_sorted|].
    intros u v Hu Hv Huv.
    destruct (In_mask 0 peaks keep u Hu) as (a & Ha & Hna & Hka).
    destruct (In_mask 0 peaks keep v Hv) as (b & Hb & Hnb & Hkb).
    assert (Hab : a <> b) by (intros ->; lia).
    assert (Hfar : far peaks distance a b).
    { apply Hset; auto. apply in_or_app. left. apply in_rev.
      rewrite rev_involutive.
      apply (Permutation_in _ (Permutation_sym (argsort_perm priority))).
      apply in_seq. lia. }
    unfold far in Hfar. rewrite Hna, Hnb in Hfar. lia.
Qed.

Lemma local_maxima_1d_spec (x : list F) (i : nat) :
  In i (map midpoint (local_maxima_1d x)) -> local_maximum x i.
Proof.
  intros Hin. apply in_map_iff in Hin. destruct Hin as (m & <- & Hm).
  pose proof (local_maxima_loop_spec x (length x) 1 (le_n 1)) as Hall.
  rewrite Forall_forall in Hall. apply is_maximum_local, (Hall m Hm).
Qed.

(** What [find_peaks] returns, for any height and distance. *)
Lemma find_peaks_spec (x : list F) (height : F) (distance : nat) :
  (forall i, In i (find_peaks x height distance) ->
             local_maximum x i /\ fle height (item x i) = true) /\
  StronglySorted lt (find_peaks x height distance) /\
  StronglySorted (fun u v => u + distance <= v)
                 (find_peaks x height distance).
Proof.
  unfold find_peaks, select_by_property.
  set (peaks0 := map midpoint (local_maxima_1d x)).
  rewrite map_map, mask_map_filter.
  set (peaks1 := filter (fun i => fle height (item x i)) peaks0).
  assert (Hs0 : StronglySorted lt peaks0).
  { apply local_maxima_loop_sorted. lia. }
  assert (Hs1 : StronglySorted lt peaks1).
  { subst peaks1. rewrite <- mask_map_filter. now apply mask_sorted. }
  split; [|split].
  - intros i Hi. apply In_mask_In in Hi. apply filter_In in Hi.
    destruct Hi as [Hi Hh]. split; [now apply local_maxima_1d_spec|exact Hh].
  - now apply mask_sorted.
  - apply select_by_peak_distance_gap; [exact Hs1|apply length_map].
Qed.

Lemma item_map_fneg (x : list F) (j : nat) :
  j < length x -> item (map fneg x) j = fneg (item x j).
Proof.
  intros Hj. unfold item.
  rewrite (nth_indep _ (lit 0) (fneg (lit 0))) by now rewrite length_map.
  apply map_nth.
Qed.

Lemma local_maximum_neighbours (x : list F) (i : nat) :
  local_maximum x i -> no_higher_neighbour x i.
Proof.
  intros (l & r & P1 & P2 & P3 & P4 & _ & Pe & Pl & Pr).
  assert (Hi : forall b, flt (item x i) b = flt (item x l) b).
  { intros b. destruct (Nat.eq_dec i l) as [->|Hne]; [reflexivity|].
    symmetry. apply flt_feq_l, Pe. lia. }
  unfold no_higher_neighbour. rewrite !Hi.
  split; [lia|]. split; [lia|]. split.
  - destruct (Nat.eq_dec i l) as [->|Hne]; [now apply flt_asym|].
    destruct (Nat.eq_dec (i - 1) l) as [->|Hne']; [apply flt_irrefl|].
    apply feq_not_flt, Pe. lia.
  - destruct (Nat.eq_dec i r) as [->|Hne]; [now apply flt_asym|].
    apply feq_not_flt, Pe. lia.
Qed.

Lemma local_minimum_neighbours (x : list F) (i : nat) :
  local_maximum (map fneg x) i -> no_lower_neighbour x i.
Proof.
  intros Hm. apply local_maximum_neighbours in Hm.
  destruct Hm as (H1 & H2 & H3 & H4). rewrite length_map in H2.
  rewrite !item_map_fneg, flt_fneg in H3, H4 by lia.
  repeat split; auto.
Qed.

(** No index is at once a maximum of a sequence and of its negation. *)
Lemma local_maximum_not_both (x : list F) (i : nat) :
  local_maximum x i -> local_maximum (map fneg x) i -> False.
Proof.
  intros (l & r & P1 & P2 & P3 & P4 & _ & Pe & Pl & Pr)
         (l' & r' & Q1 & Q2 & Q3 & Q4 & _ & Qe & Ql & Qr).
  rewrite length_map in Q4.
  rewrite !item_map_fneg, flt_fneg in Ql by lia.
  assert (Qe' : forall j, l' < j <= r' -> feq (item x j) (item x l') = true).
  { intros j Hj. specialize (Qe j Hj).
    now rewrite !item_map_fneg, feq_fneg in Qe by lia. }
  destruct (Nat.lt_trichotomy l l') as [Hlt|[->|Hgt]].
  - (* the left edge of the minimum lies inside the plateau of the maximum *)
    assert (E1 : feq (item x l') (item x l) = true) by (apply Pe; lia).
    destruct (Nat.eq_dec (l' - 1) l) as [E|Hne].
    + rewrite E in Ql. apply feq_not_flt in E1. destruct E1 as [E1 _].
      congruence.
    + assert (E2 : feq (item x (l' - 1)) (item x l) = true) by (apply Pe; lia).
      pose proof (feq_flt _ _ _ E1 E2). congruence.
  - apply flt_asym in Pl. congruence.
  - assert (E1 : feq (item x l) (item x l') = true) by (apply Qe'; lia).
    destruct (Nat.eq_dec (l - 1) l') as [E|Hne].
    + rewrite E in Pl. apply feq_not_flt in E1. destruct E1 as [_ E1].
      congruence.
    + assert (E2 : feq (item x (l - 1)) (item x l') = true)
        by (apply Qe'; lia).
      pose proof (feq_flt _ _ _ E2 E1). congruence.
Qed.

Lemma find_peaks_and_minima_facts (intensity : list F) :
  let peaks := fst (find_peaks_and_minima intensity) in
  let minima := snd (find_peaks_and_minima intensity) in
  (forall i, In i peaks ->
             local_maximum intensity i /\
             fle (lit (1 # 10)) (item intensity i) = true) /\
  (forall i, In i minima ->
             local_maximum (map fneg intensity) i /\
             fle (item intensity i) (lit (9 # 10)) = true) /\
  StronglySorted lt peaks /\ StronglySorted lt minima /\
  StronglySorted (fun u v => u + 10 <= v) peaks /\
  StronglySorted (fun u v => u + 10 <= v) minima.
Proof.
  cbn [find_peaks_and_minima fst snd].
  destruct (find_peaks_spec intensity (lit (1 # 10)) 10) as (A1 & A2 & A3).
  destruct (find_peaks_spec (map fneg intensity) (fneg (lit (9 # 10))) 10)
    as (B1 & B2 & B3).
  split; [exact A1|]. split; [|auto].
  intros i Hi. destruct (B1 i Hi) as [Hm Hh]. split; [exact Hm|].
  destruct Hm as (l & r & Q1 & Q2 & Q3 & Q4 & _).
  rewrite length_map in Q4.
  now rewrite item_map_fneg, fle_fneg in Hh by lia.
Qed.

End FindPeaksProofs.

Example plateau_signal_peaks :
  find_peaks plateau_signal 0%Q 1 = [2; 5; 7].
Proof. vm_compute. reflexivity. Qed.

Example plateau_signal_peaks_distance :
  find_peaks plateau_signal 0%Q 4 = [2; 7].
Proof. vm_compute. reflexivity. Qed.

(** Minima above 0.9 are found by the scan but dropped by the height
    condition of the minima pass. *)
Example high_signal_extrema :
  find_peaks_and_minima high_signal = ([12; 36; 60; 84], []) /\
  find_peaks (map fneg high_signal) (fneg 1%Q) 10 = [24; 48; 72; 96].
Proof. split; vm_compute; reflexivity. Qed.

Example triangle_signal_extrema :
  find_peaks_and_minima triangle_signal = ([12; 36; 60; 84], [24; 48; 72; 96]).
Proof. vm_compute. reflexivity. Qed.

(** C9. For every intensity sequence the two lists returned by
    [find_peaks_and_minima] are such that every peak index is a local
    maximum (the midpoint of a plateau above both outer neighbours, so that
    neither neighbour of the index is higher) whose value is at least 0.1,
    every minimum index is a local maximum of the negated sequence,
    consecutive indices of one list are at least 10 apart, each list is
    ascending, and no index is in both. *)
Theorem find_peaks_and_minima_spec :
  forall (F : Type) (C : Cmp F) (L : CmpLaws F) (intensity : list F),
    let peaks := fst (find_peaks_and_minima intensity) in
    let minima := snd (find_peaks_and_minima intensity) in
    (forall i, In i peaks ->
               local_maximum intensity i /\
               no_higher_neighbour intensity i /\
               fle (lit (1 # 10)) (item intensity i) = true) /\
    (forall i, In i minima ->
               local_maximum (map fneg intensity) i /\
               no_lower_neighbour intensity i) /\
    min_gap 10 peaks /\ min_gap 10 minima /\
    ascending peaks /\ ascending minima /\
    (forall i, In i peaks -> ~ In i minima).
Proof.
  intros F C L intensity peaks minima.
  destruct (find_peaks_and_minima_facts intensity)
    as (Hp & Hm & Sp & Sm & Gp & Gm).
  fold peaks in Hp, Sp, Gp. fold minima in Hm, Sm, Gm.
  split.
  { intros i Hi. destruct (Hp i Hi) as [Hmax Hh].
    split; [exact Hmax|]. split; [|exact Hh].
    now apply local_maximum_neighbours. }
  split.
  { intros i Hi. destruct (Hm i Hi) as [Hmax _].
    split; [exact Hmax|]. now apply local_minimum_neighbours. }
  split; [intros i Hi; now apply (sorted_consecutive _ _ Gp)|].
  split; [intros i Hi; now apply (sorted_consecutive _ _ Gm)|].
  split; [intros i Hi; now apply (sorted_consecutive _ _ Sp)|].
  split; [intros i Hi; now apply (sorted_consecutive _ _ Sm)|].
  intros i Hi Hi'. apply Hp in Hi. apply Hm in Hi'.
  eapply local_maximum_not_both; [apply Hi|apply Hi'].
Qed.

Lemma find_peaks_and_minima_spec_witness :
  let peaks := fst (find_peaks_and_minima triangle_signal) in
  let minima := snd (find_peaks_and_minima triangle_signal) in
  peaks = [12; 36; 60; 84] /\ minima = [24; 48; 72; 96] /\
  (forall i, In i peaks ->
             local_maximum triangle_signal i /\
             no_higher_neighbour triangle_signal i /\
             fle (lit (1 # 10)) (item triangle_signal i) = true) /\
  (forall i, In i minima ->
             local_maximum (map fneg triangle_signal) i /\
             no_lower_neighbour triangle_signal i) /\
  min_gap 10 peaks /\ min_gap 10 minima /\
  ascending peaks /\ ascending minima /\
  (forall i, In i peaks -> ~ In i minima).
Proof.
  split; [vm_compute; reflexivity|]. split; [vm_compute; reflexivity|].
  exact (find_peaks_and_minima_spec Q Cmp_Q CmpLaws_Q triangle_signal).
Defined.

(** C10. Every index of the minima list has an intensity of at most 0.9:
    the minima pass keeps a maximum of the negated sequence only when its
    height reaches the fixed threshold -0.9. *)
Theorem minima_at_most_nine_tenths :
  forall (F : Type) (C : Cmp F) (L : CmpLaws F) (intensity : list F) (i : nat),
    In i (snd (find_peaks_and_minima intensity)) ->
    fle (item intensity i) (lit (9 # 10)) = true.
Proof.
  intros F C L intensity i Hi.
  destruct (find_peaks_and_minima_facts intensity) as (_ & Hm & _).
  now apply Hm.
Qed.

Lemma minima_at_most_nine_tenths_witness :
  In 24 (snd (find_peaks_and_minima triangle_signal)) /\
  fle (item triangle_signal 24) (lit (9 # 10)) = true.
Proof.
  assert (Hin : In 24 (snd (find_peaks_and_minima triangle_signal))).
  { vm_compute. left. reflexivity. }
  split; [exact Hin|].
  exact (minima_at_most_nine_tenths Q Cmp_Q CmpLaws_Q triangle_signal 24 Hin).
Defined.

(** ** Stage-wise arrays and pointwise values agree *)

Lemma single_slit_intensity_map {F : Type} `{Arith F}
      (self : DoubleslitSimulator F) (ys : list F) :
  single_slit_intensity self ys = map (single_slit_at self) ys.
Proof.
  unfold single_slit_intensity, np_where. rewrite !map_map. reflexivity.
Qed.

Lemma double_slit_intensity_map {F : Type} `{Arith F}
      (self : DoubleslitSimulator F) (ys : list F) :
  double_slit_intensity self ys = map (double_slit_at self) ys.
Proof.
  unfold double_slit_intensity, np_where.
  rewrite !map_map, map2_map_map. reflexivity.
Qed.

Lemma raw_intensity_map {F : Type} `{Arith F}
      (self : DoubleslitSimulator F) (ys : list F) (double_slit : bool) :
  raw_intensity self ys double_slit =
    map (if double_slit then double_slit_at self else single_slit_at self) ys.
Proof.
  destruct double_slit; simpl;
    [apply double_slit_intensity_map|apply single_slit_intensity_map].
Qed.

(** ** The intensity model over the real numbers *)

(** Unfold the class operations to the operations on [R], leaving the
    constants of the model folded. *)
Ltac real_ops :=
  cbn [fadd fsub fmul fdiv fabs fneg flt fle feq fsin fcos farctan fsqrt fpi
       fmaximum fminimum of_Z Arith_R Cmp_R] in *.

Section RealModel.
Local Open Scope R_scope.





Variable self : DoubleslitSimulator R.











End RealModel.

(** ** The screen grid over the real numbers *)

Section RealGrid.
Local Open Scope R_scope.


Lemma nth_map_seq (f : nat -> R) (len i : nat) :
  (i < len)%nat -> nth i (map f (seq 0 len)) 0 = f i.
Proof.
  intros Hi. rewrite (nth_indep _ 0 (f 0%nat))
    by now rewrite length_map, length_seq.
  rewrite map_nth, seq_nth by lia. reflexivity.
Qed.

Lemma nth_set_last (l : list R) (v : R) :
  forall i, (i < length l)%nat ->
    nth i (set_last l v) 0 = if (i =? length l - 1)%nat then v else nth i l 0.
Proof.
  induction l as [|x [|y t] IH]; intros i Hi; simpl in Hi; [lia| |].
  - destruct i; [reflexivity|lia].
  - destruct i as [|i].
    + reflexivity.
    + change (set_last (x :: y :: t) v) with (x :: set_last (y :: t) v).
      cbn [nth]. rewrite IH by (simpl; lia).
      cbn [length]. replace (S (S (length t)) - 1)%nat with (S (length t)) by lia.
      replace (S (length t) - 1)%nat with (length t) by lia.
      reflexivity.
Qed.

(** Over the reals the two ways of scaling the samples agree. *)
Lemma linspace_samples_real (start stop : R) (n : Z) :
  linspace_samples start stop n =
    if (1 <? n)%Z
    then set_last
           (map (fun v => fadd v start)
              (if (0 <? n - 1)%Z
               then map (fun i => fmul i (fdiv (fsub stop start)
                                               (of_Z (n - 1))))
                        (np_arange (Z.to_nat n))
               else map (fun i => fmul i (fsub stop start))
                        (np_arange (Z.to_nat n)))) stop
    else map (fun v => fadd v start)
           (if (0 <? n - 1)%Z
            then map (fun i => fmul i (fdiv (fsub stop start)
                                            (of_Z (n - 1))))
                     (np_arange (Z.to_nat n))
            else map (fun i => fmul i (fsub stop start))
                     (np_arange (Z.to_nat n))).
Proof.
  unfold linspace_samples.
  assert (E : map (fun i : R => fmul (fdiv i (of_Z (n - 1)))
                                     (fsub stop start))
                  (np_arange (Z.to_nat n)) =
              map (fun i : R => fmul i (fdiv (fsub stop start)
                                             (of_Z (n - 1))))
                  (np_arange (Z.to_nat n))).
  { apply map_ext. intros i. real_ops. unfold Rdiv. ring. }
  destruct (0 <? n - 1)%Z; [|reflexivity].
  destruct (feq _ _); [rewrite E|]; reflexivity.
Qed.

Lemma linspace_samples_length (start stop : R) (n : Z) :
  length (linspace_samples start stop n) = Z.to_nat n.
Proof.
  rewrite linspace_samples_real. unfold np_arange.
  destruct (1 <? n)%Z; [rewrite set_last_length|];
    destruct (0 <? n - 1)%Z; now rewrite !length_map, length_seq.
Qed.

(** Over the reals the samples of [np.linspace] are the affine ones, the
    overwritten last one included. *)
Lemma linspace_samples_nth (start stop : R) (n : Z) (i : nat) :
  (2 <= n)%Z -> (i < Z.to_nat n)%nat ->
  nth i (linspace_samples start stop n) 0 =
    start + INR i * ((stop - start) / (IZR n - 1)).
Proof.
  intros Hn Hi.
  assert (Hd : IZR n - 1 <> 0).
  { apply IZR_le in Hn. lra. }
  rewrite linspace_samples_real. unfold np_arange.
  destruct (Z.ltb_spec 0 (n - 1)) as [_|]; [|lia].
  destruct (Z.ltb_spec 1 n) as [_|]; [|lia].
  rewrite !map_map.
  rewrite nth_set_last by now rewrite length_map, length_seq.
  rewrite length_map, length_seq.
  real_ops. rewrite minus_IZR.
  destruct (Nat.eqb_spec i (Z.to_nat n - 1)) as [->|Hne].
  - rewrite minus_INR by lia. rewrite (INR_IZR_INZ (Z.to_nat n)), Z2Nat.id by lia.
    simpl INR. field. exact Hd.
  - rewrite nth_map_seq by lia. rewrite <- INR_IZR_INZ. ring.
Qed.



(** ** The maximum of an array and its normalisation *)

Lemma fold_max_spec (t : list R) :
  forall x,
    In (fold_left Rmax t x) (x :: t) /\
    (forall v, In v (x :: t) -> v <= fold_left Rmax t x).
Proof.
  induction t as [|y t IH]; intros x; cbn [fold_left].
  - split; [now left|]. intros v [<-|[]]. lra.
  - destruct (IH (Rmax x y)) as [Hin Hub]. split.
    + destruct Hin as [E|Hin]; [|right; now right].
      rewrite <- E. unfold Rmax. destruct (Rle_dec x y); [right|]; now left.
    + intros v [<-|[<-|Hv]].
      * eapply Rle_trans; [apply Rmax_l|]. apply Hub. now left.
      * eapply Rle_trans; [apply Rmax_r|]. apply Hub. now left.
      * apply Hub. now right.
Qed.

Lemma np_max_spec (l : list R) :
  l <> [] ->
  exists m, np_max l = Ok m /\ In m l /\ (forall v, In v l -> v <= m).
Proof.
  destruct l as [|x t]; [congruence|]. intros _.
  exists (fold_left Rmax t x). split; [reflexivity|]. apply fold_max_spec.
Qed.





End RealGrid.

(** ** The simulator and the analyser over the real numbers *)

Section RealSpec.
Local Open Scope R_scope.









(** *** A setup whose envelope vanishes at distance 1 *)










(** *** Inputs on which the claimed errors are not raised *)

(** C5 (amended). The normalising line of [fraunhofer_diffraction] does
    not look at the sign of the maximum and has no error of its own: on
    every non-empty raw array it returns the array divided elementwise by
    its largest entry, whatever that entry is; it raises only on an empty
    array, where the [ValueError] comes from [np.max].  Real arithmetic. *)
Theorem normalize_divides_by_max :
  forall (self : DoubleslitSimulator R) (y_positions : list R)
         (double_slit : bool) (raw : list R),
    fraunhofer_diffraction self y_positions double_slit =
      normalize (raw_intensity self y_positions double_slit) /\
    match normalize raw with
    | Ok out =>
        exists m, In m raw /\ (forall v, In v raw -> v <= m) /\
                  out = map (fun v => v / m) raw
    | Raise e => raw = [] /\ e = ValueError msg_empty_max
    end.
Proof.
  intros self ys mode raw. split; [now destruct mode|].
  destruct raw as [|x t]; [split; reflexivity|].
  destruct (np_max_spec (x :: t)) as (m & E & Hin & Hub); [discriminate|].
  unfold normalize. rewrite E. cbn [bind].
  exists m. split; [exact Hin|]. split; [exact Hub|reflexivity].
Qed.

(** C6, as stated, fails: a resolution of 1 and a screen width of 0 are
    both accepted. *)
Lemma simulate_experiment_accepts_invalid :
  (exists y_positions intensity,
      simulate_experiment default_simulator (lit (1 # 100)) 1 true =
        Ok (y_positions, intensity) /\
      length y_positions = 1%nat /\ length intensity = 1%nat) /\
  (exists y_positions intensity,
      simulate_experiment default_simulator 0 2 true =
        Ok (y_positions, intensity) /\
      length y_positions = 2%nat /\ length intensity = 2%nat).
Proof.
  split.
  - eexists. eexists. split; [reflexivity|]. split; reflexivity.
  - pose proof (simulate_experiment_shape default_simulator (0 : R) 2 true)
      as Hs.
    destruct (simulate_experiment default_simulator 0 2 true)
      as [[ys I]|e]; [|lia].
    exists ys, I. split; [reflexivity|]. destruct Hs as (_ & Hy & HI).
    split; assumption.
Qed.



Lemma compare_with_theory_no_data_witness :
  compare_with_theory InterferenceAnalyzer_init default_simulator
                      (lit (1 # 100)) = Raise (ValueError msg_no_data) /\
  compare_with_theory {| experimental_data := Some [];
                         theoretical_data := None |}
                      default_simulator (lit (1 # 100)) =
    Raise (ValueError msg_empty_max).
Proof.
  split.
  - apply (compare_with_theory_no_data R Cmp_R Arith_R
             InterferenceAnalyzer_init default_simulator (lit (1 # 100))).
    left. reflexivity.
  - apply (compare_with_theory_no_data R Cmp_R Arith_R
             {| experimental_data := Some []; theoretical_data := None |}
             default_simulator (lit (1 # 100))).
    right. reflexivity.
Defined.

End RealSpec.

(** * Binary64 numbers *)

(** ** Rounding *)

Section Rounding.
Local Open Scope R_scope.

Lemma pow2_pos (e : Z) : 0 < pow2 e.
Proof. apply powerRZ_lt. lra. Qed.

Lemma pow2_add (a b : Z) : pow2 (a + b) = pow2 a * pow2 b.
Proof. apply powerRZ_add. lra. Qed.

Lemma pow2_opp (a : Z) : pow2 (- a) = / pow2 a.
Proof. apply powerRZ_neg'. Qed.

Lemma pow2_IZR (e : Z) : (0 <= e)%Z -> pow2 e = IZR (2 ^ e).
Proof.
  intros He. unfold pow2. rewrite <- (Z2Nat.id e He).
  rewrite <- pow_powerRZ. apply pow_IZR.
Qed.

Lemma pow2_0 : pow2 0 = 1.
Proof. reflexivity. Qed.

Lemma pow2_ge_1 (e : Z) : (0 <= e)%Z -> 1 <= pow2 e.
Proof.
  intros He. rewrite pow2_IZR by exact He. apply IZR_le.
  pose proof (Z.pow_pos_nonneg 2 e). lia.
Qed.

Lemma pow2_le (a b : Z) : (a <= b)%Z -> pow2 a <= pow2 b.
Proof.
  intros Hab. replace b with (a + (b - a))%Z by lia. rewrite pow2_add.
  pose proof (pow2_pos a) as Ha. pose proof (pow2_ge_1 (b - a)) as Hb.
  specialize (Hb ltac:(lia)).
  assert (H : pow2 a * 1 <= pow2 a * pow2 (b - a))
    by (apply Rmult_le_compat_l; lra).
  lra.
Qed.

Lemma pow2_lt (a b : Z) : (a < b)%Z -> pow2 a < pow2 b.
Proof.
  intros Hab. replace b with (a + 1 + (b - a - 1))%Z by lia.
  rewrite !pow2_add. change (pow2 1) with (2 * 1).
  pose proof (pow2_pos a) as Ha. pose proof (pow2_ge_1 (b - a - 1)) as Hb.
  specialize (Hb ltac:(lia)).
  assert (H : pow2 a * 1 <= pow2 a * pow2 (b - a - 1))
    by (apply Rmult_le_compat_l; lra).
  lra.
Qed.

Lemma pow2_exp (e : Z) : pow2 e = exp (IZR e * ln 2).
Proof. unfold pow2. rewrite powerRZ_Rpower by lra. reflexivity. Qed.

Lemma ln2_pos : 0 < ln 2.
Proof. rewrite <- ln_1. apply ln_increasing; lra. Qed.

Lemma mag2_spec (x : R) :
  x <> 0 -> pow2 (mag2 x - 1) <= Rabs x < pow2 (mag2 x).
Proof.
  intros Hx. assert (Ha : 0 < Rabs x) by now apply Rabs_pos_lt.
  unfold mag2. set (r := ln (Rabs x) / ln 2).
  destruct (archimed r) as [Hup Hlo]. pose proof ln2_pos as H2.
  assert (Er : ln (Rabs x) = r * ln 2) by (unfold r; field; lra).
  assert (Ea : Rabs x = exp (r * ln 2))
    by (rewrite <- Er; symmetry; apply exp_ln; exact Ha).
  rewrite !pow2_exp, minus_IZR. rewrite Ea. split.
  - destruct (Req_dec ((IZR (up r) - 1) * ln 2) (r * ln 2)) as [E|E].
    + rewrite E. lra.
    + left. apply exp_increasing. nra.
  - apply exp_increasing. nra.
Qed.

Lemma nearest_even_spec (r : R) : Rabs (IZR (nearest_even r) - r) <= / 2.
Proof.
  unfold nearest_even. destruct (base_Int_part r) as [Hlo Hhi].
  destruct (total_order_T (r - IZR (Int_part r)) (/ 2)) as [[L|E]|G].
  - rewrite Rabs_left1 by lra. lra.
  - destruct (Z.even (Int_part r)).
    + rewrite Rabs_left1 by lra. lra.
    + rewrite plus_IZR. rewrite Rabs_right by lra. lra.
  - rewrite plus_IZR. rewrite Rabs_right by lra. lra.
Qed.

Lemma nearest_even_nearest (r : R) (k : Z) :
  Rabs (IZR (nearest_even r) - r) <= Rabs (IZR k - r).
Proof.
  pose proof (nearest_even_spec r) as Hn.
  destruct (Z.eq_dec k (nearest_even r)) as [->|Hne]; [lra|].
  assert (H1 : 1 <= Rabs (IZR k - IZR (nearest_even r))).
  { rewrite <- minus_IZR, <- abs_IZR. apply IZR_le. lia. }
  revert Hn H1. unfold Rabs.
  repeat destruct Rcase_abs; lra.
Qed.

Lemma pow2_53 : pow2 53 = IZR (2 ^ 53).
Proof. apply pow2_IZR. lia. Qed.

Lemma scaled_distance (x : R) (e k : Z) :
  Rabs (IZR k * pow2 e - x) = Rabs (IZR k - x * pow2 (- e)) * pow2 e.
Proof.
  pose proof (pow2_pos e) as Hp.
  transitivity (Rabs ((IZR k - x * pow2 (- e)) * pow2 e)).
  - f_equal. rewrite pow2_opp. field. lra.
  - rewrite Rabs_mult. f_equal. apply Rabs_right. lra.
Qed.

Lemma representable_0 : representable 0.
Proof. exists 0%Z, 0%Z. repeat split; try lia. rewrite pow2_0. lra. Qed.

Lemma round_b64_0 : round_b64 0 = 0.
Proof.
  unfold round_b64. destruct (Req_dec_T 0 0) as [_|H]; [reflexivity|].
  now elim H.
Qed.

Lemma round_b64_eq (x : R) :
  x <> 0 ->
  let e := Z.max (mag2 x - 53) (-1074) in
  round_b64 x = IZR (nearest_even (x * pow2 (- e))) * pow2 e.
Proof.
  intros Hx e. unfold round_b64.
  destruct (Req_dec_T x 0) as [E|_]; [contradiction|reflexivity].
Qed.

Lemma round_b64_representable (x : R) : representable (round_b64 x).
Proof.
  destruct (Req_dec x 0) as [->|Hx].
  { rewrite round_b64_0. apply representable_0. }
  rewrite round_b64_eq by exact Hx.
  set (e := Z.max (mag2 x - 53) (-1074)).
  set (r := x * pow2 (- e)). set (n := nearest_even r).
  destruct (mag2_spec x Hx) as [_ Hhi].
  assert (Hr : Rabs r < pow2 53).
  { unfold r. rewrite Rabs_mult, (Rabs_right (pow2 (- e)))
      by (left; apply pow2_pos).
    apply Rlt_le_trans with (pow2 (mag2 x) * pow2 (- e)).
    - apply Rmult_lt_compat_r; [apply pow2_pos|exact Hhi].
    - rewrite <- pow2_add. apply pow2_le. lia. }
  assert (Hn : (Z.abs n <= 2 ^ 53)%Z).
  { assert (H : IZR (Z.abs n) < IZR (2 ^ 53 + 1)).
    { rewrite abs_IZR, plus_IZR, <- pow2_53.
      pose proof (nearest_even_spec r) as Hs. fold n in Hs.
      revert Hs Hr. unfold Rabs. repeat destruct Rcase_abs; lra. }
    apply lt_IZR in H. lia. }
  destruct (Z.eq_dec (Z.abs n) (2 ^ 53)) as [E|Hne].
  - exists (n / 2)%Z, (e + 1)%Z. split; [|split].
    + rewrite pow2_add. change (pow2 1) with (2 * 1).
      assert (En : n = (2 * (n / 2))%Z).
      { apply Z.div_exact; [lia|].
        destruct (Z.abs_spec n) as [[_ A]|[_ A]]; rewrite A in E.
        - rewrite E. reflexivity.
        - replace n with (- 2 ^ 53)%Z by lia. reflexivity. }
      rewrite En at 1. rewrite mult_IZR. ring.
    + destruct (Z.abs_spec n) as [[_ A]|[_ A]]; rewrite A in E.
      * rewrite E. reflexivity.
      * replace n with (- 2 ^ 53)%Z by lia. reflexivity.
    + unfold e. lia.
  - exists n, e. split; [reflexivity|]. split; [lia|unfold e; lia].
Qed.

(** What is returned is a number of the format nearest to [x]. *)
Lemma round_b64_nearest (x g : R) :
  representable g -> Rabs (round_b64 x - x) <= Rabs (g - x).
Proof.
  intros (m & e' & -> & Hm & He').
  destruct (Req_dec x 0) as [->|Hx].
  { rewrite round_b64_0. rewrite Rminus_0_r, Rabs_R0. apply Rabs_pos. }
  rewrite round_b64_eq by exact Hx.
  set (e := Z.max (mag2 x - 53) (-1074)).
  pose proof (pow2_pos e) as Hp.
  rewrite scaled_distance.
  destruct (Z_le_gt_dec e e') as [Hle|Hgt].
  - replace (IZR m * pow2 e') with (IZR (m * 2 ^ (e' - e)) * pow2 e).
    + rewrite scaled_distance.
      apply Rmult_le_compat_r; [lra|apply nearest_even_nearest].
    + rewrite mult_IZR, <- pow2_IZR by lia.
      rewrite Rmult_assoc, <- pow2_add. do 2 f_equal. lia.
  - assert (Ee : e = (mag2 x - 53)%Z) by (unfold e; lia).
    destruct (mag2_spec x Hx) as [Hlo _].
    assert (Hg : Rabs (IZR m * pow2 e') < pow2 (mag2 x - 1)).
    { rewrite Rabs_mult, (Rabs_right (pow2 e')) by (left; apply pow2_pos).
      apply Rlt_le_trans with (pow2 53 * pow2 e').
      - apply Rmult_lt_compat_r; [apply pow2_pos|].
        rewrite pow2_53, <- abs_IZR. now apply IZR_lt.
      - rewrite <- pow2_add. apply pow2_le. lia. }
    assert (Hk : pow2 (mag2 x - 1) = IZR (2 ^ 52) * pow2 e).
    { rewrite <- pow2_IZR by lia. rewrite <- pow2_add. f_equal. lia. }
    destruct (Rlt_le_dec 0 x) as [Hpos|Hneg].
    + apply Rle_trans with (Rabs (IZR (2 ^ 52) - x * pow2 (- e)) * pow2 e).
      * apply Rmult_le_compat_r; [lra|apply nearest_even_nearest].
      * rewrite <- scaled_distance, <- Hk.
        rewrite (Rabs_right x) in Hlo by lra.
        revert Hg. set (g := IZR m * pow2 e'). unfold Rabs.
        repeat destruct Rcase_abs; lra.
    + apply Rle_trans
        with (Rabs (IZR (- 2 ^ 52) - x * pow2 (- e)) * pow2 e).
      * apply Rmult_le_compat_r; [lra|apply nearest_even_nearest].
      * rewrite <- scaled_distance, opp_IZR, Ropp_mult_distr_l_reverse, <- Hk.
        rewrite (Rabs_left1 x) in Hlo by lra.
        revert Hg. set (g := IZR m * pow2 e'). unfold Rabs.
        repeat destruct Rcase_abs; lra.
Qed.

(** A number of the format is left as it is. *)
Lemma round_b64_id (x : R) : representable x -> round_b64 x = x.
Proof.
  intros Hx. pose proof (round_b64_nearest x x Hx) as H.
  rewrite Rminus_diag, Rabs_R0 in H.
  pose proof (Rabs_pos (round_b64 x - x)) as H0.
  assert (E : Rabs (round_b64 x - x) = 0) by lra.
  revert E. unfold Rabs. destruct Rcase_abs; lra.
Qed.

(** Rounding does not cross a number of the format. *)
Lemma round_b64_ge (a x : R) : representable a -> a <= x -> a <= round_b64 x.
Proof.
  intros Ha Hax. pose proof (round_b64_nearest x a Ha) as H.
  revert H. unfold Rabs. repeat destruct Rcase_abs; lra.
Qed.

Lemma round_b64_le (b x : R) : representable b -> x <= b -> round_b64 x <= b.
Proof.
  intros Hb Hxb. pose proof (round_b64_nearest x b Hb) as H.
  revert H. unfold Rabs. repeat destruct Rcase_abs; lra.
Qed.

Lemma representable_grid (g : R) :
  representable g -> exists k : Z, g = IZR k * pow2 (-1074).
Proof.
  intros (m & e & -> & _ & He). exists (m * 2 ^ (e + 1074))%Z.
  rewrite mult_IZR, <- pow2_IZR by lia.
  rewrite Rmult_assoc, <- pow2_add. do 2 f_equal. lia.
Qed.

(** Below half the smallest positive number of the format, everything is
    rounded to zero. *)
Lemma round_b64_underflow (x : R) :
  Rabs x < pow2 (-1075) -> round_b64 x = 0.
Proof.
  intros Hx.
  destruct (representable_grid _ (round_b64_representable x)) as (k & Ek).
  pose proof (round_b64_nearest x 0 representable_0) as Hn.
  rewrite Rminus_0_l, Rabs_Ropp in Hn.
  assert (Hp : pow2 (-1074) = 2 * pow2 (-1075)).
  { replace (-1074)%Z with (1 + -1075)%Z by lia. rewrite pow2_add.
    change (pow2 1) with (2 * 1). ring. }
  pose proof (pow2_pos (-1075)) as Hpos.
  assert (Hk : Rabs (IZR k) < 1).
  { apply Rmult_lt_reg_r with (pow2 (-1074)); [lra|].
    rewrite <- (Rabs_right (pow2 (-1074))) at 1 by lra.
    rewrite <- Rabs_mult, <- Ek.
    revert Hn Hx. unfold Rabs. repeat destruct Rcase_abs; lra. }
  rewrite <- abs_IZR in Hk. apply lt_IZR in Hk.
  rewrite Ek. replace k with 0%Z by lia. lra.
Qed.

(** Around a number [IZR m * pow2 e] with a full mantissa that is not a
    power of two, the numbers of the format are [pow2 e] apart. *)
Lemma representable_gap (m e : Z) (g : R) :
  (2 ^ 52 < Z.abs m)%Z -> representable g -> g <> IZR m * pow2 e ->
  pow2 e <= Rabs (g - IZR m * pow2 e).
Proof.
  intros Hm (m' & e' & -> & Hm' & He') Hne.
  pose proof (pow2_pos e) as Hp.
  destruct (Z_le_gt_dec e e') as [Hle|Hgt].
  - assert (Eg : IZR m' * pow2 e' = IZR (m' * 2 ^ (e' - e)) * pow2 e).
    { rewrite mult_IZR, <- pow2_IZR by lia.
      rewrite Rmult_assoc, <- pow2_add. do 2 f_equal. lia. }
    rewrite Eg in *. set (k := (m' * 2 ^ (e' - e))%Z) in *.
    rewrite <- Rmult_minus_distr_r, Rabs_mult, (Rabs_right (pow2 e)) by lra.
    assert (H1 : 1 <= Rabs (IZR k - IZR m)).
    { rewrite <- minus_IZR, <- abs_IZR. apply IZR_le.
      assert (k <> m) by (intros ->; now apply Hne). lia. }
    rewrite <- (Rmult_1_l (pow2 e)) at 1.
    apply Rmult_le_compat_r; lra.
  - assert (Hg : Rabs (IZR m' * pow2 e') <= IZR (2 ^ 52) * pow2 e).
    { rewrite Rabs_mult, (Rabs_right (pow2 e')) by (left; apply pow2_pos).
      apply Rle_trans with (pow2 53 * pow2 e').
      - apply Rmult_le_compat_r; [left; apply pow2_pos|].
        rewrite pow2_53, <- abs_IZR. apply IZR_le. lia.
      - rewrite <- pow2_IZR by lia. rewrite <- !pow2_add.
        apply pow2_le. lia. }
    assert (Hc : (IZR (2 ^ 52) + 1) * pow2 e <= Rabs (IZR m * pow2 e)).
    { rewrite Rabs_mult, (Rabs_right (pow2 e)) by lra.
      apply Rmult_le_compat_r; [lra|].
      rewrite <- abs_IZR, <- (plus_IZR _ 1). apply IZR_le. lia. }
    revert Hg Hc. set (g := IZR m' * pow2 e'). set (c := IZR m * pow2 e).
    set (b := IZR (2 ^ 52) * pow2 e).
    replace ((IZR (2 ^ 52) + 1) * pow2 e) with (b + pow2 e)
      by (unfold b; ring).
    unfold Rabs. repeat destruct Rcase_abs; lra.
Qed.

(** Hence a real closer than half that distance is rounded to it. *)
Lemma round_b64_near (m e : Z) (x : R) :
  (2 ^ 52 < Z.abs m < 2 ^ 53)%Z -> (-1074 <= e)%Z ->
  Rabs (x - IZR m * pow2 e) < pow2 (e - 1) ->
  round_b64 x = IZR m * pow2 e.
Proof.
  intros Hm He Hx. set (c := IZR m * pow2 e) in *.
  assert (Hc : representable c) by (exists m, e; repeat split; lia).
  destruct (Req_dec (round_b64 x) c) as [E|Hne]; [exact E|exfalso].
  pose proof (representable_gap m e _ (proj1 Hm)
                (round_b64_representable x) Hne) as Hgap.
  pose proof (round_b64_nearest x c Hc) as Hn. fold c in Hgap.
  assert (Hp : pow2 e = 2 * pow2 (e - 1)).
  { replace e with (1 + (e - 1))%Z at 1 by lia. rewrite pow2_add.
    change (pow2 1) with (2 * 1). ring. }
  pose proof (pow2_pos (e - 1)) as Hpos.
  revert Hgap Hn Hx. unfold Rabs. repeat destruct Rcase_abs; lra.
Qed.

Lemma representable_IZR (z : Z) :
  (Z.abs z < 2 ^ 53)%Z -> representable (IZR z).
Proof.
  intros Hz. exists z, 0%Z. rewrite pow2_0. repeat split; try lia. lra.
Qed.

Lemma representable_pow2 (e : Z) : (-1074 <= e)%Z -> representable (pow2 e).
Proof.
  intros He. exists 1%Z, e. repeat split; try lia. lra.
Qed.

Lemma representable_opp (x : R) : representable x -> representable (- x).
Proof.
  intros (m & e & -> & Hm & He). exists (- m)%Z, e.
  rewrite opp_IZR. repeat split; try lia. lra.
Qed.

End Rounding.

(** ** Evaluating the simulator on binary64 numbers *)

Section Binary64.
Local Open Scope R_scope.

Lemma pow2_neg_IZR (p : positive) :
  pow2 (Z.neg p) = / IZR (2 ^ Z.pos p).
Proof.
  change (Z.neg p) with (- Z.pos p)%Z. rewrite pow2_opp.
  now rewrite pow2_IZR by lia.
Qed.

Lemma round_b64_IZR (z : Z) :
  (Z.abs z < 2 ^ 53)%Z -> round_b64 (IZR z) = IZR z.
Proof. intros Hz. apply round_b64_id. now apply representable_IZR. Qed.

Lemma round_b64_1 : round_b64 1 = 1.
Proof. apply (round_b64_IZR 1). reflexivity. Qed.

Lemma round_eps : round_b64 (Q2R (1 # 10000000000)) = eps_b64.
Proof.
  unfold eps_b64. apply round_b64_near; [lia|lia|].
  change (-86 - 1)%Z with (-87)%Z.
  rewrite !pow2_neg_IZR.
  let v := eval vm_compute in (2 ^ 86)%Z in change (2 ^ 86)%Z with v.
  let v := eval vm_compute in (2 ^ 87)%Z in change (2 ^ 87)%Z with v.
  unfold Q2R. cbn [Qnum Qden]. apply Rabs_def1; lra.
Qed.

Lemma eps_b64_bounds : 0 < eps_b64 < pow2 (-33).
Proof.
  unfold eps_b64. rewrite !pow2_neg_IZR.
  let v := eval vm_compute in (2 ^ 86)%Z in change (2 ^ 86)%Z with v.
  let v := eval vm_compute in (2 ^ 33)%Z in change (2 ^ 33)%Z with v.
  lra.
Qed.

Lemma sin_lower_bound (a : R) : 0 <= a <= 1 -> a - a * a * a / 6 <= sin a.
Proof.
  intros [H0 H1].
  assert (Hpi : a <= PI) by (pose proof PI2_1; lra).
  destruct (SIN a H0 Hpi) as [Hlb _].
  unfold sin_lb, sin_approx, sin_term in Hlb.
  cbn [sum_f_R0 Nat.mul Nat.add pow fact] in Hlb.
  repeat match type of Hlb with
         | context [INR ?n] =>
             let z := eval vm_compute in (Z.of_nat n) in
             replace (INR n) with (IZR z) in Hlb
               by (rewrite INR_IZR_INZ; reflexivity)
         end.
  assert (H2 : 0 <= a * a) by nra.
  assert (H3 : a * a <= 1) by nra.
  assert (H5 : 0 <= a * (a * (a * (a * (a * 1))))).
  { replace (a * (a * (a * (a * (a * 1))))) with ((a * a) * (a * a) * a)
      by ring. apply Rmult_le_pos; [apply Rmult_le_pos|]; assumption. }
  assert (H7 : a * (a * (a * (a * (a * (a * (a * 1))))))
               <= a * (a * (a * (a * (a * 1))))).
  { replace (a * (a * (a * (a * (a * (a * (a * 1)))))))
      with ((a * a) * (a * (a * (a * (a * (a * 1)))))) by ring.
    rewrite <- (Rmult_1_l (a * (a * (a * (a * (a * 1)))))) at 2.
    apply Rmult_le_compat_r; assumption. }
  lra.
Qed.



Lemma Rltb_false_intro (a b : R) : b <= a -> Rltb a b = false.
Proof. intros H. unfold Rltb. destruct (Rlt_dec a b); [lra|reflexivity]. Qed.

Lemma eps_b64_eq : (eps : b64) = B64 eps_b64.
Proof. unfold eps. b64_ops. now rewrite round_eps. Qed.



(** *** A grid of four points *)

Lemma Q2R_int (z : Z) : Q2R (z # 1) = IZR z.
Proof. unfold Q2R. cbn [Qnum Qden]. rewrite Rinv_1. ring. Qed.

Lemma lit_b64_int (z : Z) :
  (Z.abs z < 2 ^ 53)%Z -> (lit (z # 1) : b64) = B64 (IZR z).
Proof.
  intros Hz. b64_ops. now rewrite Q2R_int, round_b64_IZR.
Qed.


Lemma pow2_m1 : pow2 (-1) = / 2.
Proof. now rewrite pow2_neg_IZR. Qed.











(** *** A pattern that underflows *)

Lemma representable_1 : representable 1.
Proof. apply (representable_IZR 1). reflexivity. Qed.

Lemma pow2_m2 : pow2 (-2) = / 4.
Proof. now rewrite pow2_neg_IZR. Qed.

Lemma representable_quarter : representable (/ 4).
Proof. rewrite <- pow2_m2. apply representable_pow2. lia. Qed.

Lemma representable_half : representable (/ 2).
Proof. rewrite <- pow2_m1. apply representable_pow2. lia. Qed.

Lemma round_b64_between (a b x : R) :
  representable a -> representable b -> a <= x <= b ->
  a <= round_b64 x <= b.
Proof.
  intros Ha Hb [H1 H2]. split;
    [now apply round_b64_ge|now apply round_b64_le].
Qed.

Lemma PI_between : 2 <= PI <= 4.
Proof. pose proof PI2_1. pose proof PI_4. lra. Qed.

Lemma round_atan_1 : / 2 <= round_b64 (atan 1) <= 1.
Proof.
  apply round_b64_between;
    [apply representable_half|apply representable_1|].
  rewrite atan_1. pose proof PI_between. lra.
Qed.

Lemma round_atan_m1 : -1 <= round_b64 (atan (Ropp 1)) <= - / 2.
Proof.
  apply round_b64_between;
    [apply (representable_IZR (-1)); reflexivity
    |apply representable_opp, representable_half|].
  rewrite atan_opp, atan_1. pose proof PI_between. lra.
Qed.

Lemma sin_between (t : R) : / 2 <= t <= 1 -> / 4 <= sin t <= 1.
Proof.
  intros [H1 H2]. split; [|apply SIN_bound].
  pose proof (sin_lower_bound t ltac:(lra)) as H.
  assert (H3 : t * t * t <= t).
  { assert (t * t <= 1) by nra. nra. }
  lra.
Qed.

Lemma round_sin_pos (t : R) :
  / 2 <= t <= 1 -> / 4 <= round_b64 (sin t) <= 1.
Proof.
  intros Ht. apply round_b64_between;
    [apply representable_quarter|apply representable_1|].
  now apply sin_between.
Qed.

Lemma round_sin_neg (t : R) :
  -1 <= t <= - / 2 -> -1 <= round_b64 (sin t) <= - / 4.
Proof.
  intros Ht. apply round_b64_between;
    [apply (representable_IZR (-1)); reflexivity
    |apply representable_opp, representable_quarter|].
  pose proof (sin_between (- t) ltac:(lra)) as H.
  rewrite sin_neg in H. lra.
Qed.

Lemma pow2_600_steps :
  pow2 599 = pow2 600 / 2 /\ pow2 601 = 2 * pow2 600 /\
  pow2 602 = 4 * pow2 600.
Proof.
  replace 600%Z with (1 + 599)%Z at 1 by lia.
  replace 601%Z with (1 + 600)%Z by lia.
  replace 602%Z with (2 + 600)%Z by lia.
  rewrite !pow2_add. change (pow2 1) with (2 * 1).
  change (pow2 2) with (2 * (2 * 1)). repeat split; lra.
Qed.

Lemma slit_width_underflow :
  slit_width underflow_simulator = B64 (pow2 600).
Proof.
  unfold underflow_simulator, DoubleslitSimulator_init.
  cbn [slit_width]. b64_ops. f_equal. rewrite Q2R_int.
  rewrite <- pow2_IZR by lia. apply round_b64_id, representable_pow2. lia.
Qed.

Lemma round_pi_slit :
  pow2 601 <= round_b64 (round_b64 PI * pow2 600) <= pow2 602.
Proof.
  destruct pow2_600_steps as (_ & E1 & E2).
  pose proof (pow2_pos 600) as Hp.
  assert (Hpi : 2 <= round_b64 PI <= 4).
  { apply round_b64_between;
      [apply (representable_IZR 2); reflexivity
      |apply (representable_IZR 4); reflexivity|apply PI_between]. }
  apply round_b64_between; try (apply representable_pow2; lia).
  rewrite E1, E2. nra.
Qed.

(** Where [|beta|] is at least [2 ** 599], the squared quotient is below
    the smallest positive binary64 number and is rounded to 0. *)
Lemma squared_quotient_underflows (b : R) :
  pow2 599 <= Rabs b ->
  round_b64 (round_b64 (round_b64 (sin b) / b)
             * round_b64 (round_b64 (sin b) / b)) = 0.
Proof.
  intros Hb. pose proof (pow2_pos 599) as Hp.
  assert (Hs : -1 <= round_b64 (sin b) <= 1).
  { apply round_b64_between;
      [apply (representable_IZR (-1)); reflexivity|apply representable_1
      |apply SIN_bound]. }
  assert (Hinv : pow2 (-599) = / pow2 599) by apply (pow2_opp 599).
  assert (Hq : Rabs (round_b64 (sin b) / b) <= pow2 (-599)).
  { unfold Rdiv. rewrite Rabs_mult, Rabs_inv, Hinv.
    assert (H1 : Rabs (round_b64 (sin b)) <= 1)
      by (apply Rabs_le; lra).
    assert (H2 : / Rabs b <= / pow2 599)
      by (apply Rinv_le_contravar; lra).
    assert (H3 : 0 <= / Rabs b).
    { left. apply Rinv_0_lt_compat. lra. }
    pose proof (Rabs_pos (round_b64 (sin b))). nra. }
  set (q := round_b64 (round_b64 (sin b) / b)).
  assert (Hq' : - pow2 (-599) <= q <= pow2 (-599)).
  { apply round_b64_between;
      [apply representable_opp|idtac|idtac];
      try (apply representable_pow2; lia).
    revert Hq. unfold Rabs. destruct Rcase_abs; lra. }
  apply round_b64_underflow.
  assert (Hlt : pow2 (-1198) < pow2 (-1075)) by (apply pow2_lt; lia).
  assert (E : pow2 (-1198) = pow2 (-599) * pow2 (-599)).
  { rewrite <- pow2_add. reflexivity. }
  pose proof (pow2_pos (-599)) as Hp'.
  rewrite Rabs_mult.
  assert (Ha : Rabs q <= pow2 (-599)) by (apply Rabs_le; lra).
  pose proof (Rabs_pos q). nra.
Qed.

Lemma round_b64_m1 : round_b64 (Ropp 1) = Ropp 1.
Proof. apply round_b64_id, representable_opp, representable_1. Qed.

Lemma single_slit_underflows (self : DoubleslitSimulator b64) (y : b64) :
  pow2 599 <= Rabs (b64R (beta_at self y)) ->
  single_slit_at self y = B64 0.
Proof.
  intros Hb.
  assert (Hs : beta_safe_at self y = beta_at self y).
  { unfold beta_safe_at. rewrite eps_b64_eq. b64_ops.
    rewrite Rltb_false_intro; [reflexivity|].
    destruct eps_b64_bounds as [_ He].
    pose proof (pow2_ge_1 599 ltac:(lia)).
    assert (pow2 (-33) < pow2 0) by (apply pow2_lt; lia).
    rewrite pow2_0 in *. lra. }
  unfold single_slit_at, sq. rewrite Hs. b64_ops. f_equal.
  now apply squared_quotient_underflows.
Qed.

Lemma beta_underflow_fields :
  screen_distance underflow_simulator = B64 1 /\
  wavelength (wave underflow_simulator) = B64 1.
Proof.
  unfold underflow_simulator, DoubleslitSimulator_init, WaveFunction_init.
  cbn [screen_distance wavelength wave].
  split; apply (lit_b64_int 1); lia.
Qed.

Lemma beta_underflow_pos :
  pow2 599 <= b64R (beta_at underflow_simulator (B64 1)).
Proof.
  destruct beta_underflow_fields as [ED EW].
  unfold beta_at. rewrite ED, EW, slit_width_underflow. b64_ops.
  replace (1 / 1) with 1 by lra. rewrite round_b64_1.
  pose proof (round_sin_pos _ round_atan_1) as Hs.
  pose proof round_pi_slit as HP.
  destruct pow2_600_steps as (E0 & E1 & E2).
  pose proof (pow2_pos 600) as Hp.
  set (P := round_b64 (round_b64 PI * pow2 600)) in *.
  set (s := round_b64 (sin (round_b64 (atan 1)))) in *.
  apply round_b64_ge; [apply representable_pow2; lia|].
  unfold Rdiv. rewrite Rinv_1, Rmult_1_r.
  apply round_b64_ge; [apply representable_pow2; lia|].
  rewrite E0. rewrite E1 in HP. nra.
Qed.

Lemma beta_underflow_neg :
  b64R (beta_at underflow_simulator (B64 (Ropp 1))) <= - pow2 599.
Proof.
  destruct beta_underflow_fields as [ED EW].
  unfold beta_at. rewrite ED, EW, slit_width_underflow. b64_ops.
  replace (Ropp 1 / 1) with (Ropp 1) by lra.
  rewrite round_b64_m1.
  pose proof (round_sin_neg _ round_atan_m1) as Hs.
  pose proof round_pi_slit as HP.
  destruct pow2_600_steps as (E0 & E1 & E2).
  pose proof (pow2_pos 600) as Hp.
  set (P := round_b64 (round_b64 PI * pow2 600)) in *.
  set (s := round_b64 (sin (round_b64 (atan (Ropp 1))))) in *.
  apply round_b64_le;
    [apply representable_opp, representable_pow2; lia|].
  unfold Rdiv. rewrite Rinv_1, Rmult_1_r.
  apply round_b64_le;
    [apply representable_opp, representable_pow2; lia|].
  rewrite E0. rewrite E1 in HP. nra.
Qed.


(** The raw pattern of the underflowing setup on that grid, in either
    mode. *)
Lemma underflow_raw (double_slit : bool) :
  raw_intensity underflow_simulator [B64 (Ropp 1); B64 1] double_slit =
    [B64 0; B64 0].
Proof.
  assert (E1 : single_slit_at underflow_simulator (B64 (Ropp 1)) = B64 0).
  { apply single_slit_underflows. pose proof beta_underflow_neg as H.
    pose proof (pow2_pos 599). rewrite Rabs_left1; lra. }
  assert (E2 : single_slit_at underflow_simulator (B64 1) = B64 0).
  { apply single_slit_underflows. pose proof beta_underflow_pos as H.
    pose proof (pow2_pos 599). rewrite Rabs_right; lra. }
  rewrite raw_intensity_map. destruct double_slit; cbn [map].
  - unfold double_slit_at. rewrite E1, E2. b64_ops.
    now rewrite !Rmult_0_l, round_b64_0.
  - now rewrite E1, E2.
Qed.

End Binary64.

(** ** Where the claims meet rounding *)


Section Binary64Facts.
Local Open Scope R_scope.




Lemma valid_underflow_simulator : valid_setup_b64 underflow_simulator.
Proof.
  destruct beta_underflow_fields as [ED EW].
  unfold valid_setup_b64. rewrite ED, EW, slit_width_underflow.
  cbn [b64R]. repeat split; try lra.
  - apply pow2_pos.
  - unfold underflow_simulator, DoubleslitSimulator_init.
    cbn [slit_separation]. rewrite (lit_b64_int 1) by lia. cbn [b64R]. lra.
Qed.



(** C5, as stated, fails: for a valid setup whose pattern underflows, the
    raw array is zero everywhere, its maximum is 0, and
    [fraunhofer_diffraction] raises nothing, in either mode. *)
Lemma fraunhofer_diffraction_zero_maximum :
  valid_setup_b64 underflow_simulator /\
  forall double_slit : bool,
    let raw := raw_intensity underflow_simulator [B64 (Ropp 1); B64 1]
                             double_slit in
    raw = [B64 0; B64 0] /\
    (exists m, np_max raw = Ok m /\ b64R m <= 0) /\
    is_ok (fraunhofer_diffraction underflow_simulator
             [B64 (Ropp 1); B64 1] double_slit) = true.
Proof.
  split; [exact valid_underflow_simulator|].
  intros mode raw.
  assert (E : raw = [B64 0; B64 0]) by apply underflow_raw.
  split; [exact E|]. split.
  - rewrite E. cbn [np_max fold_left]. eexists. split; [reflexivity|].
    b64_ops. rewrite Rmax_left; lra.
  - unfold fraunhofer_diffraction.
    fold (raw_intensity underflow_simulator [B64 (Ropp 1); B64 1] mode).
    fold raw. rewrite E. reflexivity.
Qed.

End Binary64Facts.

(** * Further properties *)

(** ** The scan finds every local maximum *)

Section ScanComplete.
Context {F : Type} `{CmpLaws F}.

Lemma skip_plateau_exact (x : list F) (xi : F) :
  forall n s t,
    s <= t <= s + n ->
    (forall j, s <= j < t -> feq (item x j) xi = true) ->
    (t < s + n -> feq (item x t) xi = false) ->
    skip_plateau x xi n s = t.
Proof.
  induction n as [|n IH]; intros s t Ht Heq Hstop; cbn [skip_plateau].
  - lia.
  - destruct (Nat.eq_dec s t) as [->|Hne].
    + rewrite Hstop by lia. reflexivity.
    + rewrite Heq by lia. apply IH; [lia| |].
      * intros j Hj. apply Heq. lia.
      * intros Hlt. apply Hstop. lia.
Qed.

Lemma local_maxima_loop_complete (x : list F) (l r : nat) :
  1 <= l -> l <= r -> r + 1 < length x ->
  (forall j, l < j <= r -> feq (item x j) (item x l) = true) ->
  flt (item x (l - 1)) (item x l) = true ->
  flt (item x (r + 1)) (item x l) = true ->
  forall fuel i,
    1 <= i <= l -> length x - 1 - i <= fuel ->
    In ((l + r) / 2)
       (map midpoint (local_maxima_loop x (length x - 1) fuel i)).
Proof.
  intros Hl Hlr Hr Pe Pl Pr.
  induction fuel as [|fuel IH]; intros i Hi Hfuel; [lia|].
  cbn [local_maxima_loop].
  destruct (Nat.ltb_spec i (length x - 1)) as [Hlt|Hge]; [|lia].
  pose proof (skip_plateau_spec x (item x i) (length x - 1 - (i + 1)) (i + 1))
    as [Hb Hp].
  set (a := skip_plateau x (item x i) (length x - 1 - (i + 1)) (i + 1)) in *.
  destruct (Nat.eq_dec i l) as [->|Hne].
  - (* the scan stands on the left edge *)
    rewrite Pl.
    assert (Ea : a = r + 1).
    { subst a. apply skip_plateau_exact.
      - lia.
      - intros j Hj. apply Pe. lia.
      - intros _. destruct (feq (item x (r + 1)) (item x l)) eqn:E;
          [|reflexivity].
        apply feq_not_flt in E. destruct E as [E _]. congruence. }
    rewrite Ea, Pr. cbn [map midpoint]. left.
    f_equal. lia.
  - destruct (flt (item x (i - 1)) (item x i)) eqn:Eup;
      [|apply IH; lia].
    destruct (flt (item x a) (item x i)) eqn:Edn; [|apply IH; lia].
    cbn [map midpoint]. right. apply IH; [|lia].
    (* the plateau that starts at [i] ends before [l] *)
    split; [lia|].
    destruct (Nat.le_gt_cases (a + 1) l) as [Hok|Hbad]; [exact Hok|].
    exfalso.
    destruct (Nat.eq_dec l a) as [Ela|Hla].
    + subst l.
      destruct (Nat.eq_dec (a - 1) i) as [E|Hn].
      * rewrite E in Pl. apply flt_asym in Pl. congruence.
      * assert (E1 : feq (item x (a - 1)) (item x i) = true)
          by (apply Hp; lia).
        rewrite (flt_feq_r _ (item x a) _ E1) in Edn.
        apply flt_asym in Pl. congruence.
    + assert (E1 : feq (item x l) (item x i) = true) by (apply Hp; lia).
      destruct (Nat.eq_dec (l - 1) i) as [E|Hn].
      * rewrite E in Pl. apply feq_not_flt in E1. destruct E1 as [_ E1].
        congruence.
      * assert (E2 : feq (item x (l - 1)) (item x i) = true)
          by (apply Hp; lia).
        pose proof (feq_flt _ _ _ E2 E1). congruence.
Qed.

Lemma local_maxima_1d_complete (x : list F) (i : nat) :
  local_maximum x i -> In i (map midpoint (local_maxima_1d x)).
Proof.
  intros (l & r & P1 & P2 & P3 & P4 & -> & Pe & Pl & Pr).
  unfold local_maxima_1d.
  apply local_maxima_loop_complete; auto; lia.
Qed.

End ScanComplete.

(** ** Suppression drops a peak only next to one it keeps *)

Lemma mask_In_intro {A : Type} (d : A) (l : list A) :
  forall keep a,
    a < length l -> nth a keep false = true -> In (nth a l d) (mask l keep).
Proof.
  induction l as [|x t IH]; intros [|b keep] a Ha Hk; simpl in *; try lia.
  - destruct a; discriminate.
  - destruct a as [|a].
    + subst b. now left.
    + destruct b; [right|]; apply IH; auto; lia.
Qed.

Section Coverage.
Variable peaks : list nat.
Variable distance : nat.
Hypothesis peaks_sorted : StronglySorted lt peaks.

Lemma mark_earlier_only_near (pj : nat) :
  forall k1 keep b,
    nth b (mark_earlier peaks pj distance k1 keep) false = false ->
    nth b keep false = true ->
    b < k1 /\ within pj (nth b peaks 0) distance = true.
Proof.
  induction k1 as [|k0 IH]; intros keep b Hoff Hon; cbn [mark_earlier] in Hoff.
  - congruence.
  - destruct (within pj (nth k0 peaks 0) distance) eqn:E; [|congruence].
    destruct (Nat.eq_dec b k0) as [->|Hne]; [split; [lia|exact E]|].
    destruct (IH _ _ Hoff) as [Hb Hw]; [|split; [lia|exact Hw]].
    now rewrite nth_set_at_other by lia.
Qed.

Lemma mark_later_only_near (pj : nat) :
  forall n k0 keep b,
    nth b (mark_later peaks pj distance n k0 keep) false = false ->
    nth b keep false = true ->
    k0 <= b /\ within (nth b peaks 0) pj distance = true.
Proof.
  induction n as [|n IH]; intros k0 keep b Hoff Hon; cbn [mark_later] in Hoff.
  - congruence.
  - destruct (within (nth k0 peaks 0) pj distance) eqn:E; [|congruence].
    destruct (Nat.eq_dec b k0) as [->|Hne]; [split; [lia|exact E]|].
    destruct (IH _ _ _ Hoff) as [Hb Hw]; [|split; [lia|exact Hw]].
    now rewrite nth_set_at_other by lia.
Qed.

Lemma suppress_around_only_near (keep : list bool) (j b : nat) :
  length keep = length peaks ->
  j < length peaks -> b < length peaks ->
  nth b (suppress_around peaks distance keep j) false = false ->
  nth b keep false = true ->
  nth j keep false = true /\ b <> j /\ near peaks distance j b.
Proof.
  intros Hlen Hj Hb Hoff Hon. unfold suppress_around in Hoff.
  destruct (nth j keep false) eqn:Ej; [|congruence].
  split; [reflexivity|].
  set (pj := nth j peaks 0) in *.
  set (k1 := mark_earlier peaks pj distance j keep) in *.
  destruct (nth b k1 false) eqn:Eb.
  - destruct (mark_later_only_near pj _ _ _ _ Hoff Eb) as [Hge Hw].
    split; [lia|]. unfold near. fold pj. unfold within in Hw.
    apply Z.ltb_lt in Hw.
    pose proof (sorted_nth peaks peaks_sorted j b ltac:(lia) Hb). lia.
  - destruct (mark_earlier_only_near pj _ _ _ Eb Hon) as [Hlt Hw].
    split; [lia|]. unfold near. fold pj. unfold within in Hw.
    apply Z.ltb_lt in Hw.
    pose proof (sorted_nth peaks peaks_sorted b j Hlt Hj). lia.
Qed.

Lemma fold_suppress_covered :
  forall order keep done,
    length keep = length peaks ->
    (forall j, In j order -> j < length peaks) ->
    (forall a, In a done -> a < length peaks) ->
    settled peaks distance keep done ->
    covered peaks distance keep done ->
    covered peaks distance (fold_left (suppress_around peaks distance) order keep)
            (order ++ done).
Proof.
  induction order as [|j order IH]; intros keep done Hlen Hin Hdone Hs Hc;
    cbn [fold_left app]; [exact Hc|].
  assert (Hj : j < length peaks) by (apply Hin; now left).
  destruct (suppress_around_spec peaks distance peaks_sorted keep j Hlen Hj)
    as (S1 & S2 & S3).
  set (k1 := suppress_around peaks distance keep j) in *.
  assert (Hs1 : settled peaks distance k1 (j :: done)).
  { intros a b Ha Hb Hne Hka Hkb. destruct Ha as [<-|Ha].
    - apply S3; auto.
    - apply Hs; auto. }
  assert (Hc1 : covered peaks distance k1 (j :: done)).
  { intros b Hb Hoff.
    destruct (nth b keep false) eqn:Eb.
    - (* switched off in this turn *)
      destruct (suppress_around_only_near keep j b Hlen Hj Hb Hoff Eb)
        as (Ej & Hne & Hnear).
      exists j. split; [now left|]. split; [exact Hj|]. split; [|exact Hnear].
      destruct (nth j k1 false) eqn:Ej1; [reflexivity|].
      destruct (suppress_around_only_near keep j j Hlen Hj Hj Ej1 Ej)
        as (_ & Hjj & _). congruence.
    - (* switched off earlier: its keeper is still kept *)
      destruct (Hc b Hb Eb) as (a & Ha & Han & Hka & Hnear).
      exists a. split; [now right|]. split; [exact Han|].
      split; [|exact Hnear].
      destruct (nth a k1 false) eqn:Ea1; [reflexivity|].
      destruct (suppress_around_only_near keep j a Hlen Hj Han Ea1 Hka)
        as (Ej & Hne & Hnj).
      exfalso.
      assert (Hfar : far peaks distance a j) by (apply Hs; auto).
      unfold far in Hfar. unfold near in Hnj. lia. }
  assert (Hgoal : covered peaks distance (fold_left (suppress_around peaks distance) order k1)
                          (order ++ j :: done)).
  { apply IH; auto.
    - intros j' Hj'. apply Hin. now right.
    - intros a [<-|Ha]; auto. }
  intros b Hb Hoff. destruct (Hgoal b Hb Hoff) as (a & Ha & Rest).
  exists a. split; [|exact Rest].
  apply in_app_or in Ha. destruct Ha as [Ha|[<-|Ha]].
  - right. apply in_or_app. now left.
  - now left.
  - right. apply in_or_app. now right.
Qed.

End Coverage.

Section FindPeaksCoverage.
Context {F : Type} `{CmpLaws F}.

Lemma select_by_peak_distance_covers (peaks : list nat) (priority : list F)
      (distance : nat) (u : nat) :
  StronglySorted lt peaks ->
  length priority = length peaks ->
  In u peaks ->
  let kept := mask peaks (select_by_peak_distance peaks priority distance) in
  In u kept \/
  exists v, In v kept /\ (Z.abs (Z.of_nat v - Z.of_nat u) < Z.of_nat distance)%Z.
Proof.
  intros Hs Hlen Hu kept. subst kept. unfold select_by_peak_distance.
  assert (Hord : forall j, In j (rev (argsort priority)) -> j < length peaks).
  { intros j Hj. apply in_rev in Hj.
    apply (Permutation_in _ (argsort_perm priority)) in Hj.
    apply in_seq in Hj. lia. }
  destruct (fold_suppress_settled peaks distance Hs
              (rev (argsort priority)) (repeat true (length peaks)) [])
    as [Hl _]; [apply repeat_length|exact Hord|intros a b []|].
  pose proof (fold_suppress_covered peaks distance Hs
                (rev (argsort priority)) (repeat true (length peaks)) [])
    as Hcov.
  set (keep := fold_left (suppress_around peaks distance)
                         (rev (argsort priority))
                         (repeat true (length peaks))) in *.
  destruct (In_nth _ _ 0 Hu) as (b & Hb & Hnb).
  destruct (nth b keep false) eqn:Eb.
  - left. rewrite <- Hnb. now apply mask_In_intro.
  - right.
    destruct Hcov with (b := b) as (a & _ & Ha & Hka & Hnear); auto.
    + apply repeat_length.
    + intros a [].
    + intros a' b' [].
    + intros b' Hb' Hoff. exfalso.
      rewrite nth_repeat_lt in Hoff by exact Hb'. discriminate.
    + exists (nth a peaks 0). split; [now apply mask_In_intro|].
      unfold near in Hnear. rewrite Hnb in Hnear. exact Hnear.
Qed.

(** A local maximum that reaches the height is reported, or lies less than
    [distance] from a reported one. *)
Lemma find_peaks_covers (x : list F) (height : F) (distance i : nat) :
  local_maximum x i ->
  fle height (item x i) = true ->
  In i (find_peaks x height distance) \/
  exists v, In v (find_peaks x height distance) /\
            (Z.abs (Z.of_nat v - Z.of_nat i) < Z.of_nat distance)%Z.
Proof.
  intros Hmax Hh. unfold find_peaks, select_by_property.
  set (peaks0 := map midpoint (local_maxima_1d x)).
  rewrite map_map, mask_map_filter.
  set (peaks1 := filter (fun i => fle height (item x i)) peaks0).
  apply select_by_peak_distance_covers.
  - subst peaks1. rewrite <- mask_map_filter. apply mask_sorted.
    apply local_maxima_loop_sorted. lia.
  - apply length_map.
  - apply filter_In. split; [|exact Hh].
    now apply local_maxima_1d_complete.
Qed.

End FindPeaksCoverage.

#[export] Instance OrderLaws_R : OrderLaws R.
Proof.
  constructor. intros a b Hab. simpl in *.
  apply Rltb_true in Hab. apply Rleb_true. lra.
Qed.

#[export] Instance OrderLaws_Q : OrderLaws Q.
Proof.
  constructor. intros a b Hab. simpl in *.
  apply Qltb_true in Hab. apply Qle_bool_iff. now apply Qlt_le_weak.
Qed.

(** ** What [find_peaks_and_minima] cannot miss *)

(** X1. Every local maximum of the intensity with a value of at least 0.1
    is in the peak list or less than 10 indices from an entry of the peak
    list; every local maximum of the negated intensity with a value of at
    most 0.9 is in the minima list or less than 10 indices from one of its
    entries. *)
Theorem find_peaks_and_minima_covers :
  forall (F : Type) (C : Cmp F) (L : CmpLaws F) (intensity : list F)
         (i : nat),
    let peaks := fst (find_peaks_and_minima intensity) in
    let minima := snd (find_peaks_and_minima intensity) in
    (local_maximum intensity i ->
     fle (lit (1 # 10)) (item intensity i) = true ->
     In i peaks \/
     exists v, In v peaks /\ (Z.abs (Z.of_nat v - Z.of_nat i) < 10)%Z) /\
    (local_maximum (map fneg intensity) i ->
     fle (item intensity i) (lit (9 # 10)) = true ->
     In i minima \/
     exists v, In v minima /\ (Z.abs (Z.of_nat v - Z.of_nat i) < 10)%Z).
Proof.
  intros F C L intensity i peaks minima. split.
  - intros Hmax Hh.
    exact (find_peaks_covers intensity (lit (1 # 10)) 10 i Hmax Hh).
  - intros Hmax Hh.
    apply (find_peaks_covers (map fneg intensity) (fneg (lit (9 # 10))) 10 i
             Hmax).
    destruct Hmax as (l & r & Q1 & Q2 & Q3 & Q4 & _).
    rewrite length_map in Q4.
    now rewrite item_map_fneg, fle_fneg by lia.
Qed.

Lemma triangle_maximum_12 : local_maximum triangle_signal 12.
Proof.
  exists 12, 12. repeat split; try (vm_compute; lia); try reflexivity.
Qed.

Lemma triangle_minimum_24 : local_maximum (map fneg triangle_signal) 24.
Proof.
  exists 24, 24. repeat split; try (vm_compute; lia); try reflexivity.
Qed.

Lemma find_peaks_and_minima_covers_witness :
  let peaks := fst (find_peaks_and_minima triangle_signal) in
  let minima := snd (find_peaks_and_minima triangle_signal) in
  (In 12 peaks \/
   exists v, In v peaks /\ (Z.abs (Z.of_nat v - Z.of_nat 12) < 10)%Z) /\
  (In 24 minima \/
   exists v, In v minima /\ (Z.abs (Z.of_nat v - Z.of_nat 24) < 10)%Z).
Proof.
  intros peaks minima.
  destruct (find_peaks_and_minima_covers Q Cmp_Q CmpLaws_Q triangle_signal 12)
    as [Hp _].
  destruct (find_peaks_and_minima_covers Q Cmp_Q CmpLaws_Q triangle_signal 24)
    as [_ Hm].
  split.
  - apply Hp; [exact triangle_maximum_12|reflexivity].
  - apply Hm; [exact triangle_minimum_24|reflexivity].
Defined.

(** X2. A local maximum with a value of at least 0.1 that has no other such
    local maximum less than 10 indices away is in the peak list. *)
Theorem isolated_peak_is_reported :
  forall (F : Type) (C : Cmp F) (L : CmpLaws F) (intensity : list F)
         (i : nat),
    local_maximum intensity i ->
    fle (lit (1 # 10)) (item intensity i) = true ->
    (forall v, v <> i ->
               local_maximum intensity v ->
               fle (lit (1 # 10)) (item intensity v) = true ->
               (10 <= Z.abs (Z.of_nat v - Z.of_nat i))%Z) ->
    In i (fst (find_peaks_and_minima intensity)).
Proof.
  intros F C L intensity i Hmax Hh Hiso.
  destruct (find_peaks_covers intensity (lit (1 # 10)) 10 i Hmax Hh)
    as [Hin|(v & Hv & Hnear)]; [exact Hin|].
  destruct (Nat.eq_dec v i) as [->|Hne]; [exact Hv|].
  destruct (find_peaks_and_minima_facts intensity) as (Hp & _).
  destruct (Hp v Hv) as [Hvmax Hvh].
  specialize (Hiso v Hne Hvmax Hvh). change (Z.of_nat 10) with 10%Z in Hnear.
  lia.
Qed.

Lemma isolated_peak_is_reported_witness :
  In 12 (fst (find_peaks_and_minima triangle_signal)).
Proof.
  apply (isolated_peak_is_reported Q Cmp_Q CmpLaws_Q triangle_signal 12).
  - exact triangle_maximum_12.
  - reflexivity.
  - intros v Hne Hmax _. apply local_maxima_1d_complete in Hmax.
    vm_compute in Hmax.
    destruct Hmax as [<-|[<-|[<-|[<-|[]]]]]; try congruence; cbn; lia.
Defined.

(** X3. A sequence of fewer than three samples has no interior index: both
    lists are empty, and nothing is raised. *)
Theorem find_peaks_and_minima_short :
  forall (F : Type) (C : Cmp F) (intensity : list F),
    length intensity < 3 ->
    find_peaks_and_minima intensity = ([], []).
Proof.
  intros F C intensity Hlen.
  assert (Hscan : forall x : list F, length x < 3 -> local_maxima_1d x = []).
  { intros x Hx. unfold local_maxima_1d.
    destruct (length x) as [|n] eqn:E; [reflexivity|].
    cbn [local_maxima_loop].
    destruct (Nat.ltb_spec 1 (S n - 1)); [lia|reflexivity]. }
  unfold find_peaks_and_minima, find_peaks.
  rewrite !Hscan by (rewrite ?length_map; exact Hlen).
  reflexivity.
Qed.

Lemma find_peaks_and_minima_short_witness :
  find_peaks_and_minima [0%Q; 1%Q] = ([], []).
Proof.
  apply (find_peaks_and_minima_short Q Cmp_Q [0%Q; 1%Q]). simpl. lia.
Defined.

(** ** The hand-written peak loop *)

Lemma fold_append_filter (f : nat -> bool) (l : list nat) :
  forall acc,
    fold_left (fun peaks i => if f i then peaks ++ [i] else peaks) l acc =
      acc ++ filter f l.
Proof.
  induction l as [|a t IH]; intros acc; cbn [fold_left filter].
  - now rewrite app_nil_r.
  - destruct (f a); rewrite IH; [|reflexivity].
    now rewrite <- app_assoc.
Qed.

Lemma peak_loop_filter {F : Type} `{Cmp F} (intensity : list F)
      (threshold : F) :
  peak_loop intensity threshold =
    filter (is_bright_peak intensity threshold)
           (seq 1 (length intensity - 1 - 1)).
Proof. unfold peak_loop. now rewrite fold_append_filter. Qed.

Lemma bright_peak_local_maximum {F : Type} `{Cmp F} (intensity : list F)
      (threshold : F) (i : nat) :
  In i (peak_loop intensity threshold) ->
  local_maximum intensity i /\ flt threshold (item intensity i) = true.
Proof.
  rewrite peak_loop_filter. intros Hin. apply filter_In in Hin.
  destruct Hin as [Hseq Hb]. apply in_seq in Hseq.
  unfold is_bright_peak in Hb. apply andb_prop in Hb. destruct Hb as [Hb Ht].
  apply andb_prop in Hb. destruct Hb as [Hl Hr].
  split; [|exact Ht].
  exists i, i. repeat split; try lia; auto.
  symmetry. replace (i + i) with (i * 2) by lia. apply Nat.div_mul. lia.
Qed.

(** X4. The peak loop returns, in ascending order, exactly the interior
    indices whose sample exceeds both neighbours and the threshold; no two
    of them are adjacent. *)
Theorem peak_loop_spec :
  forall (F : Type) (C : Cmp F) (L : CmpLaws F) (intensity : list F)
         (threshold : F),
    (forall i, In i (peak_loop intensity threshold) <->
               1 <= i /\ i + 1 < length intensity /\
               flt (item intensity (i - 1)) (item intensity i) = true /\
               flt (item intensity (i + 1)) (item intensity i) = true /\
               flt threshold (item intensity i) = true) /\
    StronglySorted (fun a b => a + 2 <= b) (peak_loop intensity threshold).
Proof.
  intros F C L intensity threshold.
  assert (Hiff : forall i, In i (peak_loop intensity threshold) <->
               1 <= i /\ i + 1 < length intensity /\
               flt (item intensity (i - 1)) (item intensity i) = true /\
               flt (item intensity (i + 1)) (item intensity i) = true /\
               flt threshold (item intensity i) = true).
  { intros i. rewrite peak_loop_filter, filter_In, in_seq.
    unfold is_bright_peak. rewrite !andb_true_iff. split.
    - intros [Hs [[Hl Hr] Ht]]. repeat split; auto; lia.
    - intros (H1 & H2 & Hl & Hr & Ht). repeat split; auto; lia. }
  split; [exact Hiff|].
  apply sorted_pairwise.
  - rewrite peak_loop_filter.
    generalize (length intensity - 1 - 1) as n. generalize 1 as s.
    intros s n. revert s. induction n as [|n IH]; intros s; cbn [seq filter].
    + constructor.
    + destruct (is_bright_peak intensity threshold s).
      * constructor; [apply IH|]. rewrite Forall_forall. intros v Hv.
        apply filter_In in Hv. destruct Hv as [Hv _]. apply in_seq in Hv. lia.
      * apply IH.
  - intros u v Hu Hv Huv. apply Hiff in Hu, Hv.
    destruct Hu as (_ & _ & _ & Hur & _). destruct Hv as (_ & _ & Hvl & _).
    destruct (Nat.eq_dec (u + 1) v) as [E|Hne]; [|lia].
    exfalso. subst v. replace (u + 1 - 1) with u in Hvl by lia.
    apply flt_asym in Hvl. congruence.
Qed.

Example triangle_peak_loop :
  peak_loop triangle_signal (1 # 10)%Q = [12; 36; 60; 84].
Proof. vm_compute. reflexivity. Qed.

Lemma peak_loop_spec_witness :
  peak_loop triangle_signal (1 # 10)%Q = [12; 36; 60; 84] /\
  (forall i, In i (peak_loop triangle_signal (1 # 10)%Q) <->
             1 <= i /\ i + 1 < length triangle_signal /\
             flt (item triangle_signal (i - 1)) (item triangle_signal i) = true /\
             flt (item triangle_signal (i + 1)) (item triangle_signal i) = true /\
             flt (1 # 10)%Q (item triangle_signal i) = true) /\
  StronglySorted (fun a b => a + 2 <= b) (peak_loop triangle_signal (1 # 10)%Q).
Proof.
  split; [vm_compute; reflexivity|].
  exact (peak_loop_spec Q Cmp_Q CmpLaws_Q triangle_signal (1 # 10)%Q).
Defined.

(** X5. Every index the peak loop finds with threshold 0.1 is a local
    maximum for [find_peaks_and_minima] too: it is in the peak list of the
    analyser or less than 10 indices from one of its entries. *)
Theorem peak_loop_within_analyser :
  forall (F : Type) (C : Cmp F) (L : CmpLaws F) (O : OrderLaws F)
         (intensity : list F) (i : nat),
    In i (peak_loop intensity (lit (1 # 10))) ->
    let peaks := fst (find_peaks_and_minima intensity) in
    local_maximum intensity i /\
    (In i peaks \/
     exists v, In v peaks /\ (Z.abs (Z.of_nat v - Z.of_nat i) < 10)%Z).
Proof.
  intros F C L O intensity i Hin peaks.
  destruct (bright_peak_local_maximum intensity (lit (1 # 10)) i Hin)
    as [Hmax Ht].
  split; [exact Hmax|].
  apply (find_peaks_covers intensity (lit (1 # 10)) 10 i Hmax).
  now apply flt_fle.
Qed.

Lemma peak_loop_within_analyser_witness :
  let peaks := fst (find_peaks_and_minima triangle_signal) in
  local_maximum triangle_signal 36 /\
  (In 36 peaks \/
   exists v, In v peaks /\ (Z.abs (Z.of_nat v - Z.of_nat 36) < 10)%Z).
Proof.
  apply (peak_loop_within_analyser Q Cmp_Q CmpLaws_Q OrderLaws_Q
           triangle_signal 36).
  vm_compute. right. left. reflexivity.
Defined.

(** ** The simplified simulator *)

(** X6. The simplified simulator of the basic test computes what
    [DoubleslitSimulator] computes in double-slit mode: the same raw
    intensity on every grid and the same outcome of [simulate_experiment],
    errors included, in every arithmetic. *)
Theorem simple_simulator_agrees :
  forall (F : Type) (C : Cmp F) (A : Arith F)
         (wavelength slit_width slit_separation screen_distance : F)
         (screen_width : F) (resolution : Z) (y_positions : list F),
    let simple :=
      Simple.SimpleDoubleslitSimulator_init wavelength slit_width
                                            slit_separation screen_distance in
    let full :=
      DoubleslitSimulator_init wavelength slit_width slit_separation
                               screen_distance in
    Simple.double_slit_intensity simple y_positions =
      double_slit_intensity full y_positions /\
    Simple.simulate_experiment simple screen_width resolution =
      simulate_experiment full screen_width resolution true.
Proof.
  intros F C A wl a d D w n ys simple full.
  split; [reflexivity|].
  unfold Simple.simulate_experiment, simulate_experiment,
    fraunhofer_diffraction, normalize.
  destruct (np_linspace (fdiv (fneg w) (lit 2)) (fdiv w (lit 2)) n)
    as [grid|e]; cbn [bind]; [|reflexivity].
  change (Simple.double_slit_intensity simple grid)
    with (double_slit_intensity full grid).
  destruct (np_max (double_slit_intensity full grid)); reflexivity.
Qed.

(** ** The wave function over the real numbers *)

Section WaveFacts.
Local Open Scope R_scope.








End WaveFacts.

Section GridFacts.
Local Open Scope R_scope.



(** ** Bounds on the raw intensities *)





(** ** Degenerate arguments of [simulate_experiment] *)






End GridFacts.

(** ** What [compare_with_theory] returns *)

Lemma compare_with_theory_ok {F : Type} `{Arith F}
      (self : InterferenceAnalyzer F) (simulator : DoubleslitSimulator F)
      (w : F) (e : list F) :
  experimental_data self = Some e ->
  e <> [] ->
  exists ys t,
    simulate_experiment simulator w (Z.of_nat (length e)) true = Ok (ys, t) /\
    length t = length e /\
    compare_with_theory self simulator w =
      Ok ({| experimental_data := Some e; theoretical_data := Some t |},
          {| correlation := np_corrcoef01 e t;
             rms_error := fsqrt (np_mean (map sq (map2 fsub e t)));
             experimental_peaks := fst (find_peaks_and_minima e);
             theoretical_peaks := fst (find_peaks_and_minima t);
             experimental_minima := snd (find_peaks_and_minima e);
             theoretical_minima := snd (find_peaks_and_minima t) |}).
Proof.
  intros He Hne. unfold compare_with_theory. rewrite He.
  pose proof (simulate_experiment_shape simulator w
                (Z.of_nat (length e)) true) as Hs.
  destruct (simulate_experiment simulator w (Z.of_nat (length e)) true)
    as [[ys t]|err].
  - exists ys, t. split; [reflexivity|]. split; [|reflexivity].
    destruct Hs as (_ & _ & Hlen). rewrite Hlen. apply Nat2Z.id.
  - destruct e as [|a e']; [congruence|]. cbn [length] in Hs. lia.
Qed.

(** X12. What a comparison returns is a fixed point: comparing again on the
    analyser that a successful comparison returned gives the same analyser
    and the same dictionary, the stored theoretical data playing no part. *)
Theorem compare_with_theory_repeatable :
  forall (F : Type) (C : Cmp F) (A : Arith F)
         (self self' : InterferenceAnalyzer F)
         (simulator : DoubleslitSimulator F) (screen_width : F)
         (res : comparison F),
    compare_with_theory self simulator screen_width = Ok (self', res) ->
    experimental_data self' = experimental_data self /\
    compare_with_theory self' simulator screen_width = Ok (self', res).
Proof.
  intros F C A self self' simulator w res Hcmp.
  unfold compare_with_theory in Hcmp.
  destruct (experimental_data self) as [e|] eqn:He; [|discriminate].
  destruct (simulate_experiment simulator w (Z.of_nat (length e)) true)
    as [[ys t]|err] eqn:Hs; cbn [bind] in Hcmp; [|discriminate].
  injection Hcmp as <- <-. split; [reflexivity|].
  unfold compare_with_theory. cbn [experimental_data]. rewrite Hs.
  reflexivity.
Qed.

Lemma compare_with_theory_repeatable_witness :
  let self : InterferenceAnalyzer R :=
    {| experimental_data := Some [0; 1; 0]%R; theoretical_data := None |} in
  exists self' res,
    compare_with_theory self default_simulator 2%R = Ok (self', res) /\
    experimental_data self' = experimental_data self /\
    compare_with_theory self' default_simulator 2%R = Ok (self', res).
Proof.
  intros self.
  destruct (compare_with_theory_ok self default_simulator 2%R
              [0; 1; 0]%R eq_refl ltac:(discriminate))
    as (ys & t & _ & _ & Hcmp).
  eexists. eexists. split; [exact Hcmp|].
  exact (compare_with_theory_repeatable R _ _ self _ default_simulator 2%R
           _ Hcmp).
Defined.

Section Scores.
Local Open Scope R_scope.














End Scores.

Section SelfComparison.
Local Open Scope R_scope.











End SelfComparison.

(** ** Fringe spacing *)



Section FringeFacts.
Local Open Scope R_scope.







End FringeFacts.

(** ** Images *)

Lemma np_index_inside (size : nat) (i : Z) :
  (0 <= i < Z.of_nat size)%Z ->
  np_index size i = Some (Z.to_nat i) /\ Z.to_nat i < size.
Proof.
  intros Hi. unfold np_index.
  destruct (Z.leb_spec 0 i); [|lia].
  destruct (Z.ltb_spec i (Z.of_nat size)); [|lia].
  split; [reflexivity|lia].
Qed.

Lemma pixel_at_inside (image : list (list Byte.byte)) (height width : nat)
      (y x : Z) :
  length image = height ->
  Forall (fun row => length row = width) image ->
  (0 <= y < Z.of_nat height)%Z -> (0 <= x < Z.of_nat width)%Z ->
  exists p, pixel_at image y x = Some p.
Proof.
  intros Hh Hw Hy Hx. unfold pixel_at. rewrite Hh.
  destruct (np_index_inside height y Hy) as [-> Hr].
  destruct (nth_error image (Z.to_nat y)) as [row|] eqn:Erow.
  - assert (Hlen : length row = width).
    { rewrite Forall_forall in Hw. apply Hw. eapply nth_error_In, Erow. }
    rewrite Hlen.
    destruct (np_index_inside width x Hx) as [-> Hc].
    destruct (nth_error row (Z.to_nat x)) as [p|] eqn:Ep; [now exists p|].
    apply nth_error_None in Ep. lia.
  - apply nth_error_None in Erow. lia.
Qed.

Lemma gather_inside (image : list (list Byte.byte)) (height width : nat) :
  length image = height ->
  Forall (fun row => length row = width) image ->
  forall y_coords x_coords,
    length y_coords = length x_coords ->
    Forall (fun y => 0 <= y < Z.of_nat height)%Z y_coords ->
    Forall (fun x => 0 <= x < Z.of_nat width)%Z x_coords ->
    exists profile,
      gather image y_coords x_coords = Some profile /\
      length profile = length x_coords.
Proof.
  intros Hh Hw. induction y_coords as [|y ys IH]; intros [|x xs] Hlen Hy Hx;
    simpl in Hlen; try lia.
  - exists []. split; reflexivity.
  - inversion Hy as [|? ? Hy1 Hy2]; subst. inversion Hx as [|? ? Hx1 Hx2]; subst.
    destruct (pixel_at_inside image _ _ y x eq_refl Hw Hy1 Hx1) as [p Hp].
    destruct (IH xs) as (rest & Hrest & Hl); auto.
    exists (p :: rest). cbn [gather]. rewrite Hp, Hrest.
    split; [reflexivity|]. simpl. now rewrite Hl.
Qed.

Lemma gather_length (image : list (list Byte.byte)) :
  forall y_coords x_coords profile,
    length y_coords = length x_coords ->
    gather image y_coords x_coords = Some profile ->
    length profile = length x_coords.
Proof.
  induction y_coords as [|y ys IH]; intros [|x xs] profile Hlen Hg;
    simpl in Hlen; try lia; cbn [gather] in Hg.
  - now injection Hg as <-.
  - destruct (pixel_at image y x); [|discriminate].
    destruct (gather image ys xs) as [rest|] eqn:E; [|discriminate].
    injection Hg as <-. simpl. f_equal. apply (IH xs); auto.
Qed.

Section RealImages.
Local Open Scope R_scope.

Lemma lit_255 : (lit 255 : R) = 255.
Proof. simpl. unfold Q2R. simpl. field. Qed.

Lemma to_unit_scale_range (a : list Byte.byte) :
  Forall (fun v : R => 0 <= v <= 1) (to_unit_scale a).
Proof.
  unfold to_unit_scale. apply Forall_map, Forall_forall. intros b _.
  real_ops. rewrite lit_255.
  pose proof (Byte.to_nat_bounded b) as Hb.
  assert (H0 : 0 <= IZR (Z.of_nat (Byte.to_nat b))) by (apply IZR_le; lia).
  assert (H1 : IZR (Z.of_nat (Byte.to_nat b)) <= 255) by (apply IZR_le; lia).
  split.
  - apply Rmult_le_pos; [exact H0|]. lra.
  - lra.
Qed.

Lemma Rtrunc_nonneg_spec (x : R) (z : Z) :
  0 <= x -> IZR z <= x < IZR z + 1 -> Rtrunc x = z.
Proof.
  intros Hx [Hlo Hhi]. unfold Rtrunc.
  destruct (Rle_dec 0 x) as [_|Hn]; [|contradiction].
  symmetry. apply Int_part_spec. lra.
Qed.

Lemma Rtrunc_between (x : R) (m : Z) :
  0 <= x <= IZR m -> (0 <= Rtrunc x <= m)%Z.
Proof.
  intros [H0 Hm]. unfold Rtrunc.
  destruct (Rle_dec 0 x) as [_|Hn]; [|contradiction].
  destruct (base_Int_part x) as [Hlo Hhi]. split.
  - assert (Hgt : (-1 < Int_part x)%Z) by (apply lt_IZR; lra). lia.
  - apply le_IZR. lra.
Qed.

Lemma Rtrunc_sqrt (n : Z) :
  (0 <= n)%Z -> Rtrunc (sqrt (IZR n)) = Z.sqrt n.
Proof.
  intros Hn. pose proof (Z.sqrt_spec n Hn) as [Hlo Hhi].
  pose proof (Z.sqrt_nonneg n) as Hs.
  set (s := Z.sqrt n) in *.
  assert (Hs' : 0 <= IZR s) by (apply IZR_le; exact Hs).
  apply Rtrunc_nonneg_spec; [apply sqrt_pos|]. split.
  - rewrite <- (sqrt_square (IZR s)) by exact Hs'.
    apply sqrt_le_1.
    + nra.
    + apply IZR_le. exact Hn.
    + rewrite <- mult_IZR. apply IZR_le. exact Hlo.
  - rewrite <- (sqrt_square (IZR s + 1)) by lra.
    apply sqrt_lt_1.
    + apply IZR_le. exact Hn.
    + nra.
    + rewrite <- (plus_IZR s 1), <- mult_IZR. apply IZR_lt.
      unfold Z.succ in Hhi. exact Hhi.
Qed.

(** The samples of [np.linspace] between two integers stay between them. *)
Lemma linspace_samples_between (a b n : Z) (lo hi : R) :
  lo <= IZR a <= hi -> lo <= IZR b <= hi ->
  Forall (fun v => lo <= v <= hi) (linspace_samples (IZR a) (IZR b) n).
Proof.
  intros Ha Hb. apply Forall_forall. intros v Hv.
  destruct (In_nth _ _ 0 Hv) as (i & Hi & <-).
  rewrite linspace_samples_length in Hi.
  destruct (Z.le_gt_cases 2 n) as [Hn|Hn].
  - rewrite linspace_samples_nth by lia.
    assert (Hd : 0 < IZR n - 1) by (apply IZR_le in Hn; lra).
    assert (Hi' : 0 <= INR i <= IZR n - 1).
    { split; [apply pos_INR|].
      assert (H1 : (i <= Z.to_nat n - 1)%nat) by lia.
      apply le_INR in H1. rewrite minus_INR in H1 by lia.
      rewrite (INR_IZR_INZ (Z.to_nat n)), Z2Nat.id in H1 by lia.
      simpl INR in H1. exact H1. }
    set (t := INR i / (IZR n - 1)).
    assert (Ht : 0 <= t <= 1).
    { subst t. split.
      - apply Rmult_le_pos; [lra|]. left. now apply Rinv_0_lt_compat.
      - apply (Rmult_le_reg_r (IZR n - 1)); [exact Hd|]. unfold Rdiv.
        rewrite Rmult_assoc, Rinv_l by lra. lra. }
    replace (IZR a + INR i * ((IZR b - IZR a) / (IZR n - 1)))
      with (IZR a + t * (IZR b - IZR a)) by (subst t; field; lra).
    split; nra.
  - assert (En : n = 1%Z) by lia. subst n.
    assert (i = 0)%nat by (simpl in Hi; lia). subst i.
    rewrite linspace_samples_real. unfold np_arange.
    change (0 <? 1 - 1)%Z with false. change (1 <? 1)%Z with false.
    change (Z.to_nat 1) with 1%nat. cbn [seq map nth]. real_ops.
    change (Z.of_nat 0) with 0%Z.
    replace (0 * (IZR b - IZR a) + IZR a) with (IZR a) by ring. exact Ha.
Qed.

Lemma coords_inside (a b n : Z) (size : nat) :
  (0 <= a < Z.of_nat size)%Z -> (0 <= b < Z.of_nat size)%Z ->
  Forall (fun c => 0 <= c < Z.of_nat size)%Z
         (map ftrunc (linspace_samples (IZR a) (IZR b) n)).
Proof.
  intros Ha Hb. apply Forall_map.
  eapply Forall_impl;
    [|apply (linspace_samples_between a b n 0 (IZR (Z.of_nat size - 1)))].
  - intros v Hv. cbn [ftrunc Trunc_R].
    pose proof (Rtrunc_between v (Z.of_nat size - 1) Hv). lia.
  - split; apply IZR_le; lia.
  - split; apply IZR_le; lia.
Qed.

Lemma extract_line_profile_inside_aux :
  forall (image : list (list Byte.byte)) (height width : nat)
         (x0 y0 x1 y1 : Z),
    length image = height ->
    Forall (fun row => length row = width) image ->
    (0 <= x0 < Z.of_nat width)%Z -> (0 <= x1 < Z.of_nat width)%Z ->
    (0 <= y0 < Z.of_nat height)%Z -> (0 <= y1 < Z.of_nat height)%Z ->
    exists profile : list R,
      extract_line_profile image (x0, y0) (x1, y1) = Loaded profile /\
      length profile =
        Z.to_nat (Z.sqrt ((x1 - x0) ^ 2 + (y1 - y0) ^ 2)) /\
      Forall (fun v => 0 <= v <= 1) profile.
Proof.
  intros image height width x0 y0 x1 y1 Hh Hw Hx0 Hx1 Hy0 Hy1.
  unfold extract_line_profile. real_ops. cbn [ftrunc Trunc_R].
  assert (Hsq : (0 <= (x1 - x0) ^ 2 + (y1 - y0) ^ 2)%Z) by nia.
  rewrite Rtrunc_sqrt by exact Hsq.
  set (num := Z.sqrt ((x1 - x0) ^ 2 + (y1 - y0) ^ 2)).
  assert (Hnum : (0 <= num)%Z) by apply Z.sqrt_nonneg.
  unfold np_linspace. destruct (Z.ltb_spec num 0) as [Hneg|_]; [lia|].
  destruct (gather_inside image height width Hh Hw
              (map Rtrunc (linspace_samples (IZR y0) (IZR y1) num))
              (map Rtrunc (linspace_samples (IZR x0) (IZR x1) num)))
    as (pixels & Hg & Hlen).
  - now rewrite !length_map, !linspace_samples_length.
  - apply (coords_inside y0 y1 num height); assumption.
  - apply (coords_inside x0 x1 num width); assumption.
  - rewrite Hg. exists (to_unit_scale pixels). split; [reflexivity|]. split.
    + unfold to_unit_scale. rewrite length_map, Hlen, length_map.
      apply linspace_samples_length.
    + apply to_unit_scale_range.
Qed.

(** X16. On an image of [height] rows of [width] bytes, a line whose two
    end points lie inside the image is always extracted: the profile has
    as many samples as the integer square root of the squared length of the
    line, each between 0 and 1.  Real arithmetic. *)
Theorem extract_line_profile_inside :
  forall (image : list (list Byte.byte)) (height width : nat)
         (x0 y0 x1 y1 : Z),
    length image = height ->
    Forall (fun row => length row = width) image ->
    (0 <= x0 < Z.of_nat width)%Z -> (0 <= x1 < Z.of_nat width)%Z ->
    (0 <= y0 < Z.of_nat height)%Z -> (0 <= y1 < Z.of_nat height)%Z ->
    exists profile : list R,
      extract_line_profile image (x0, y0) (x1, y1) = Loaded profile /\
      length profile =
        Z.to_nat (Z.sqrt ((x1 - x0) ^ 2 + (y1 - y0) ^ 2)) /\
      Forall (fun v => 0 <= v <= 1) profile.
Proof.
  exact extract_line_profile_inside_aux.
Qed.

Lemma extract_line_profile_inside_witness :
  exists profile : list R,
    extract_line_profile sample_gray (0, 0)%Z (2, 1)%Z = Loaded profile /\
    length profile = Z.to_nat (Z.sqrt ((2 - 0) ^ 2 + (1 - 0) ^ 2)) /\
    Forall (fun v => 0 <= v <= 1) profile.
Proof.
  apply (extract_line_profile_inside sample_gray 2 3 0 0 2 1).
  - reflexivity.
  - repeat constructor.
  - simpl; lia.
  - simpl; lia.
  - simpl; lia.
  - simpl; lia.
Defined.

Lemma gather_nth (image : list (list Byte.byte)) :
  forall (ys xs : list Z) (pixels : list Byte.byte) (i : nat),
    gather image ys xs = Some pixels ->
    (i < length pixels)%nat ->
    nth_error pixels i = pixel_at image (nth i ys 0%Z) (nth i xs 0%Z).
Proof.
  induction ys as [|y ys IH]; intros xs pixels i Hg Hi.
  - simpl in Hg. injection Hg as <-. simpl in Hi. lia.
  - destruct xs as [|x xs].
    + simpl in Hg. injection Hg as <-. simpl in Hi. lia.
    + simpl in Hg.
      destruct (pixel_at image y x) as [p|] eqn:Ep; [|discriminate].
      destruct (gather image ys xs) as [rest|] eqn:Er; [|discriminate].
      injection Hg as <-. destruct i as [|i].
      * simpl. now rewrite Ep.
      * simpl. apply IH; [exact Er|simpl in Hi; lia].
Qed.

Lemma Rtrunc_IZR (z : Z) : (0 <= z)%Z -> Rtrunc (IZR z) = z.
Proof.
  intros Hz. apply Rtrunc_nonneg_spec; [apply IZR_le; exact Hz|lra].
Qed.

Lemma linspace_coords_ends (a b n : Z) :
  (0 <= a)%Z -> (0 <= b)%Z -> (2 <= n)%Z ->
  nth 0 (map Rtrunc (linspace_samples (IZR a) (IZR b) n)) 0%Z = a /\
  nth (Z.to_nat n - 1)
      (map Rtrunc (linspace_samples (IZR a) (IZR b) n)) 0%Z = b.
Proof.
  intros Ha Hb Hn.
  assert (Hd : IZR n - 1 <> 0) by (apply IZR_le in Hn; lra).
  assert (H0 : Rtrunc 0 = 0%Z) by (apply (Rtrunc_IZR 0); lia).
  split.
  - rewrite <- H0 at 1. rewrite map_nth.
    rewrite linspace_samples_nth by lia.
    transitivity (Rtrunc (IZR a)); [|apply Rtrunc_IZR; exact Ha].
    f_equal. change (INR 0) with 0. unfold Rdiv. ring.
  - rewrite <- H0 at 1. rewrite map_nth.
    rewrite linspace_samples_nth by lia.
    transitivity (Rtrunc (IZR b)); [|apply Rtrunc_IZR; exact Hb].
    f_equal.
    replace (INR (Z.to_nat n - 1)) with (IZR n - 1).
    + field. exact Hd.
    + rewrite minus_INR by lia. rewrite (INR_IZR_INZ (Z.to_nat n)).
      rewrite Z2Nat.id by lia. change (INR 1) with 1. ring.
Qed.

(** X17. On a line inside the image with at least two samples, the first
    sample is the pixel at the start point and the last sample the pixel at
    the end point, each divided by 255.  Real arithmetic. *)
Theorem extract_line_profile_ends :
  forall (image : list (list Byte.byte)) (height width : nat)
         (x0 y0 x1 y1 : Z),
    length image = height ->
    Forall (fun row => length row = width) image ->
    (0 <= x0 < Z.of_nat width)%Z -> (0 <= x1 < Z.of_nat width)%Z ->
    (0 <= y0 < Z.of_nat height)%Z -> (0 <= y1 < Z.of_nat height)%Z ->
    (2 <= Z.sqrt ((x1 - x0) ^ 2 + (y1 - y0) ^ 2))%Z ->
    exists (profile : list R) (first last : Byte.byte),
      extract_line_profile image (x0, y0) (x1, y1) = Loaded profile /\
      pixel_at image y0 x0 = Some first /\
      pixel_at image y1 x1 = Some last /\
      nth_error profile 0 =
        Some (IZR (Z.of_nat (Byte.to_nat first)) / 255) /\
      nth_error profile (length profile - 1) =
        Some (IZR (Z.of_nat (Byte.to_nat last)) / 255).
Proof.
  intros image height width x0 y0 x1 y1 Hh Hw Hx0 Hx1 Hy0 Hy1 Hlong.
  unfold extract_line_profile. real_ops. cbn [ftrunc Trunc_R].
  assert (Hsq : (0 <= (x1 - x0) ^ 2 + (y1 - y0) ^ 2)%Z) by nia.
  rewrite Rtrunc_sqrt by exact Hsq.
  set (num := Z.sqrt ((x1 - x0) ^ 2 + (y1 - y0) ^ 2)) in *.
  unfold np_linspace. destruct (Z.ltb_spec num 0) as [Hneg|_]; [lia|].
  set (ys := map Rtrunc (linspace_samples (IZR y0) (IZR y1) num)).
  set (xs := map Rtrunc (linspace_samples (IZR x0) (IZR x1) num)).
  destruct (gather_inside image height width Hh Hw ys xs)
    as (pixels & Hg & Hlen).
  - unfold ys, xs. now rewrite !length_map, !linspace_samples_length.
  - apply (coords_inside y0 y1 num height); assumption.
  - apply (coords_inside x0 x1 num width); assumption.
  - assert (Hpl : length pixels = Z.to_nat num).
    { rewrite Hlen. unfold ys, xs. rewrite length_map.
      apply linspace_samples_length. }
    destruct (linspace_coords_ends y0 y1 num) as [Hy_first Hy_last];
      [lia|lia|exact Hlong|].
    destruct (linspace_coords_ends x0 x1 num) as [Hx_first Hx_last];
      [lia|lia|exact Hlong|].
    pose proof (gather_nth image ys xs pixels 0 Hg) as Hfirst.
    pose proof (gather_nth image ys xs pixels (Z.to_nat num - 1) Hg)
      as Hlast.
    unfold ys, xs in Hfirst, Hlast.
    rewrite Hy_first, Hx_first in Hfirst.
    rewrite Hy_last, Hx_last in Hlast.
    specialize (Hfirst ltac:(lia)). specialize (Hlast ltac:(lia)).
    destruct (nth_error pixels 0) as [first|] eqn:Efirst;
      [|apply nth_error_None in Efirst; lia].
    destruct (nth_error pixels (Z.to_nat num - 1)) as [last|] eqn:Elast;
      [|apply nth_error_None in Elast; lia].
    rewrite Hg. exists (to_unit_scale pixels), first, last.
    split; [reflexivity|]. split; [now symmetry|]. split; [now symmetry|].
    unfold to_unit_scale. rewrite length_map, Hpl, !nth_error_map.
    rewrite Efirst, Elast. cbn [option_map]. real_ops.
    rewrite lit_255. split; reflexivity.
Qed.

Lemma extract_line_profile_ends_witness :
  exists (profile : list R) (first last : Byte.byte),
    extract_line_profile sample_gray (0, 0)%Z (2, 1)%Z = Loaded profile /\
    pixel_at sample_gray 0 0 = Some first /\
    pixel_at sample_gray 1 2 = Some last /\
    nth_error profile 0 =
      Some (IZR (Z.of_nat (Byte.to_nat first)) / 255) /\
    nth_error profile (length profile - 1) =
      Some (IZR (Z.of_nat (Byte.to_nat last)) / 255).
Proof.
  apply (extract_line_profile_ends sample_gray 2 3 0 0 2 1).
  - reflexivity.
  - repeat constructor.
  - simpl; lia.
  - simpl; lia.
  - simpl; lia.
  - simpl; lia.
  - vm_compute. discriminate.
Defined.

(** X18. A line whose end point is its start point gives the empty
    profile, whatever the image and wherever the point: no sample is taken
    and no pixel is read.  Real arithmetic. *)
Theorem extract_line_profile_point :
  forall (image : list (list Byte.byte)) (x y : Z),
    extract_line_profile image (x, y) (x, y) = @Loaded (list R) [].
Proof.
  intros image x y. unfold extract_line_profile. real_ops.
  cbn [ftrunc Trunc_R].
  replace ((x - x) ^ 2 + (y - y) ^ 2)%Z with 0%Z by ring.
  rewrite Rtrunc_sqrt by lia. reflexivity.
Qed.

(** X19. A horizontal line inside the image from column [x0] to column
    [x1] yields [|x1 - x0|] samples: one fewer than the pixels it spans.
    Real arithmetic. *)
Theorem extract_line_profile_horizontal :
  forall (image : list (list Byte.byte)) (height width : nat)
         (x0 x1 y : Z),
    length image = height ->
    Forall (fun row => length row = width) image ->
    (0 <= x0 < Z.of_nat width)%Z -> (0 <= x1 < Z.of_nat width)%Z ->
    (0 <= y < Z.of_nat height)%Z ->
    exists profile : list R,
      extract_line_profile image (x0, y) (x1, y) = Loaded profile /\
      length profile = Z.to_nat (Z.abs (x1 - x0)).
Proof.
  intros image height width x0 x1 y Hh Hw Hx0 Hx1 Hy.
  destruct (extract_line_profile_inside_aux image height width x0 y x1 y
              Hh Hw Hx0 Hx1 Hy Hy) as (profile & Hp & Hlen & _).
  exists profile. split; [exact Hp|]. rewrite Hlen. f_equal.
  replace ((x1 - x0) ^ 2 + (y - y) ^ 2)%Z
    with (Z.abs (x1 - x0) * Z.abs (x1 - x0))%Z by lia.
  apply Z.sqrt_square. lia.
Qed.

Lemma extract_line_profile_horizontal_witness :
  exists profile : list R,
    extract_line_profile sample_gray (0, 1)%Z (2, 1)%Z = Loaded profile /\
    length profile = Z.to_nat (Z.abs (2 - 0)).
Proof.
  apply (extract_line_profile_horizontal sample_gray 2 3 0 2 1).
  - reflexivity.
  - repeat constructor.
  - simpl; lia.
  - simpl; lia.
  - simpl; lia.
Defined.

(** X20. When the file decodes to a grayscale image with at least one row,
    [load_image] returns the middle row scaled into [0, 1] and stores it as
    the experimental data, leaving the theoretical data alone; if that row
    is not empty, a comparison on the analyser it returns succeeds, with a
    theoretical pattern of as many points as the image is wide.  Real
    arithmetic. *)
Theorem load_image_then_compare :
  forall (bgr_image : Type) (cv2_imread : string -> option bgr_image)
         (cv2_cvtColor_gray : bgr_image -> list (list Byte.byte))
         (self : InterferenceAnalyzer R) (image_path : string)
         (image : bgr_image) (simulator : DoubleslitSimulator R)
         (screen_width : R),
    cv2_imread image_path = Some image ->
    cv2_cvtColor_gray image <> [] ->
    let gray := cv2_cvtColor_gray image in
    exists center_line self',
      nth_error gray (length gray / 2) = Some center_line /\
      load_image bgr_image cv2_imread cv2_cvtColor_gray self image_path =
        Loaded (self', to_unit_scale center_line) /\
      experimental_data self' = Some (to_unit_scale center_line) /\
      theoretical_data self' = theoretical_data self /\
      Forall (fun v => 0 <= v <= 1) (to_unit_scale center_line : list R) /\
      (center_line <> [] ->
       exists self'' res theoretical,
         compare_with_theory self' simulator screen_width =
           Ok (self'', res) /\
         theoretical_data self'' = Some theoretical /\
         length theoretical = length center_line).
Proof.
  intros bgr imread cvt self path image simulator w Hread Hne gray.
  assert (Hmid : (length gray / 2 < length gray)%nat).
  { apply Nat.div_lt; [|lia]. unfold gray.
    destruct (cvt image); [congruence|simpl; lia]. }
  destruct (nth_error gray (length gray / 2)) as [row|] eqn:Erow;
    [|apply nth_error_None in Erow; lia].
  exists row. eexists. split; [reflexivity|].
  unfold load_image. rewrite Hread. fold gray. rewrite Erow.
  split; [reflexivity|]. cbn [experimental_data theoretical_data].
  split; [reflexivity|]. split; [reflexivity|].
  split; [apply to_unit_scale_range|].
  intros Hrow.
  assert (Hscaled : (to_unit_scale row : list R) <> []).
  { unfold to_unit_scale. destruct row; [congruence|discriminate]. }
  destruct (compare_with_theory_ok
              {| experimental_data := Some (to_unit_scale row);
                 theoretical_data := theoretical_data self |}
              simulator w (to_unit_scale row) eq_refl Hscaled)
    as (ys & t & _ & Hlen & Hcmp).
  eexists. eexists. exists t. split; [exact Hcmp|].
  split; [reflexivity|]. rewrite Hlen. unfold to_unit_scale.
  apply length_map.
Qed.

Lemma load_image_then_compare_witness :
  let self := @InterferenceAnalyzer_init R in
  exists center_line self',
    nth_error sample_gray (length sample_gray / 2) = Some center_line /\
    load_image unit sample_imread sample_cvtColor self "pattern.png" =
      Loaded (self', to_unit_scale center_line) /\
    experimental_data self' = Some (to_unit_scale center_line) /\
    theoretical_data self' = theoretical_data self /\
    Forall (fun v => 0 <= v <= 1) (to_unit_scale center_line : list R) /\
    (center_line <> [] ->
     exists self'' res theoretical,
       compare_with_theory self' default_simulator 2 = Ok (self'', res) /\
       theoretical_data self'' = Some theoretical /\
       length theoretical = length center_line).
Proof.
  intros self.
  apply (load_image_then_compare unit sample_imread sample_cvtColor self
           "pattern.png" tt default_simulator 2).
  - reflexivity.
  - discriminate.
Defined.

End RealImages.
